(** * vuex-cancellable-actions: cooperative cancellation of store actions

    A shallow embedding of [src/actions.js] and the properties of its
    cancellation registry, its action wrapper and its take-latest policy.

    JavaScript runs the library on one thread: an [async] function runs
    until its next [await], is suspended there, and is resumed later by the
    event loop.  A computation is therefore modelled as a function of the
    shared state that either returns, throws, or suspends with the
    continuation that resumes it.  Between a suspension and the resumption
    anything else may run: other invocations, timers, calls of
    [cancelAction] from outside.

    A promise that is awaited as soon as it is created, as the library
    always does (lines 61-63 and 115), is the suspended call itself; a
    synchronous result and a resolved promise, a synchronous throw and a
    rejected promise are not told apart, which is what [isPromise] and
    [Promise.resolve] (lines 11-13, 62) are there for.

    The host store is not part of the library.  It is modelled by the
    record of the calls that reach it through the [commit] and [dispatch]
    of the contexts it hands out. *)

From stdpp Require Import base gmap sets list strings.

Set Default Proof Using "Type".
Set Warnings "-register-all,-notation-for-abbreviation,-clear-no-such-hyp".
Open Scope string_scope.

(** ** Values *)

(** The [rootActionId] field of a context holds [undefined] ([None]) or a
    string; the same values are what [cancelAction] receives and what the
    registry stores. *)
Notation ident := (option string).

(** Payloads and return values, opaque to the library. *)
Inductive jsval : Type :=
| Undefined
| Str (s : string)
| Obj (fields : list (string * jsval)).

(** What a [throw] or a rejected promise carries.  [ActionCancelledError]
    is the class of lines 15-21, always built without a message; [Thrown]
    is any other non-nullish value, with its [name] property ([None] when it
    has none); [ThrownNullish] is [undefined] or [null], on which reading a
    property is itself an error. *)
Inductive exn : Type :=
| ActionCancelledError
| Thrown (name : option string) (detail : jsval)
| ThrownNullish.

Definition TypeError (message : string) : exn :=
  Thrown (Some "TypeError") (Str message).

(** A call that reached the host store: [commit(...args)] or
    [dispatch(...args)]. *)
Inductive call : Type :=
| CommitCall (args : list jsval)
| DispatchCall (args : list jsval).

(** ** The shared state *)

Record World : Type := mkWorld {
  (** line 24: the [Set] closed over by the registry *)
  cancelledActions : gset ident;
  (** line 108: one [previousCalls] array per [takeLatest(...)] call *)
  previousCalls : gmap nat (list ident);
  (** the successive values of [Math.random().toString(36)] and how many
      were drawn *)
  random_source : nat -> string;
  random_count : nat;
  (** the host store: the calls forwarded to it, each with the number of
      the context they came through *)
  store : list (nat * call);
}.

Definition set_cancelledActions (f : gset ident -> gset ident) (w : World) : World :=
  mkWorld (f (cancelledActions w)) (previousCalls w) (random_source w)
          (random_count w) (store w).

Definition set_previousCalls (f : gmap nat (list ident) -> gmap nat (list ident))
    (w : World) : World :=
  mkWorld (cancelledActions w) (f (previousCalls w)) (random_source w)
          (random_count w) (store w).

Definition set_random_count (f : nat -> nat) (w : World) : World :=
  mkWorld (cancelledActions w) (previousCalls w) (random_source w)
          (f (random_count w)) (store w).

Definition set_store (f : list (nat * call) -> list (nat * call)) (w : World) : World :=
  mkWorld (cancelledActions w) (previousCalls w) (random_source w)
          (random_count w) (f (store w)).

(** ** Computations *)

(** The state of a call: returned, thrown, or suspended at an [await]. *)
Inductive Res (A : Type) : Type :=
| Value (a : A)
| Raise (e : exn)
| Yield (k : World -> World * Res A).
Arguments Value {A} a.
Arguments Raise {A} e.
Arguments Yield {A} k.

Definition M (A : Type) : Type := World -> World * Res A.

Definition mret {A} (a : A) : M A := fun w => (w, Value a).
Definition throw {A} (e : exn) : M A := fun w => (w, Raise e).

Fixpoint bindR {A B} (r : Res A) (f : A -> M B) (w : World) : World * Res B :=
  match r with
  | Value a => f a w
  | Raise e => (w, Raise e)
  | Yield k => (w, Yield (fun w' => let (w'', r') := k w' in bindR r' f w''))
  end.

Definition bind {A B} (m : M A) (f : A -> M B) : M B :=
  fun w => let (w1, r) := m w in bindR r f w1.

Notation "'let*' x ':=' m 'in' k" := (bind m (fun x => k))
  (at level 10, x name, m at level 100, k at level 200).
Notation "'let*' '_' ':=' m 'in' k" := (bind m (fun _ => k))
  (at level 10, m at level 100, k at level 200).

(** [try { ... } catch (e) { h e }] around a computation that may suspend. *)
Fixpoint catchR {A} (r : Res A) (h : exn -> M A) (w : World) : World * Res A :=
  match r with
  | Value a => (w, Value a)
  | Raise e => h e w
  | Yield k => (w, Yield (fun w' => let (w'', r') := k w' in catchR r' h w''))
  end.

Definition try_catch {A} (m : M A) (h : exn -> M A) : M A :=
  fun w => let (w1, r) := m w in catchR r h w1.

(** [await p]: the code after it runs in a later turn of the event loop,
    also when [p] is already settled; a rejection is rethrown there. *)
Fixpoint awaitR {A} (r : Res A) : Res A :=
  match r with
  | Value a => Yield (fun w => (w, Value a))
  | Raise e => Yield (fun w => (w, Raise e))
  | Yield k => Yield (fun w => let (w', r') := k w in (w', awaitR r'))
  end.

Definition await {A} (m : M A) : M A :=
  fun w => let (w1, r) := m w in (w1, awaitR r).

(** Reading and writing the shared state. *)
Definition gets {A} (f : World -> A) : M A := fun w => (w, Value (f w)).
Definition modify (f : World -> World) : M unit := fun w => (f w, Value tt).

(** ** Lines 7-9: [uniqueId] *)

Definition Math_random_toString36 : M string :=
  fun w => (set_random_count S w, Value (random_source w (random_count w))).

(** [(prefix || '') + Math.random().toString(36).substr(2, 16)] *)
Definition uniqueId (prefix : option string) : M string :=
  let* r := Math_random_toString36 in
  mret (default "" prefix ++ String.substring 2 16 r).

(** JavaScript truthiness of an identifier: [undefined] and the empty
    string are falsy. *)
Definition truthy (v : ident) : bool :=
  match v with
  | None => false
  | Some s => negb (bool_decide (s = ""))
  end.

(** ** Lines 23-37: the cancellation registry *)

Module actionCanceller.

Definition cancelAction (actionId : ident) : M unit :=
  modify (set_cancelledActions (fun s => {[actionId]} ∪ s)).

Definition isActionCancelled (actionId : ident) : M bool :=
  gets (fun w => bool_decide (actionId ∈ cancelledActions w)).

Definition cleanAction (actionId : ident) : M unit :=
  modify (set_cancelledActions (fun s => s ∖ {[actionId]})).

End actionCanceller.

(** ** Lines 39-69: [actionWrapper] *)

(** The entry points of a context: synchronous calls into the host. *)
Definition HostFn : Type := list jsval -> M jsval.

Record Context : Type := mkContext {
  rootActionId : ident;
  commit : HostFn;
  dispatch : HostFn;
}.

Definition Action : Type := Context -> list jsval -> M jsval.

(** Lines 46-51. *)
Definition wrappedCommit (rootActionId : ident) (commit : HostFn) : HostFn :=
  fun args =>
    let* cancelled := actionCanceller.isActionCancelled rootActionId in
    if cancelled : bool then throw ActionCancelledError
    else commit args.

(** Lines 53-58. *)
Definition wrappedDispatch (rootActionId : ident) (dispatch : HostFn) : HostFn :=
  fun args =>
    let* cancelled := actionCanceller.isActionCancelled rootActionId in
    if cancelled : bool then throw ActionCancelledError
    else dispatch args.

(** The wrapper writes [rootActionId], [commit] and [dispatch] into the
    context object it was given and hands that same object to the action:
    the action sees the context below.  When [await ret] (line 63) throws,
    the lines after it do not run. *)
Definition actionWrapper (action : Action) : Action :=
  fun context args =>
    let isRootAction := negb (truthy (rootActionId context)) in
    let* rootActionId :=
      (if truthy (rootActionId context) then mret (rootActionId context)
       else let* fresh := uniqueId (Some "action-") in mret (Some fresh)) in
    let context :=
      {| rootActionId := rootActionId;
         commit := wrappedCommit rootActionId (commit context);
         dispatch := wrappedDispatch rootActionId (dispatch context) |} in
    let* ret := await (action context args) in
    let* _ := (if isRootAction then actionCanceller.cleanAction rootActionId
               else mret tt) in
    mret ret.

(** ** Lines 79-87: [makeCancellable] *)

(** The argument of [makeCancellable] is the list of its own enumerable
    properties with string keys, in the order of [Object.keys].  The
    result is an object made by [{}]: its own properties, and its
    prototype once that is no longer [Object.prototype], a function that
    was assigned to ['__proto__']. *)
Record object : Type := mkObject {
  prototype : option Action;
  own : gmap string Action;
}.

(** The keys an object whose prototype is one of the wrapper's async
    functions cannot be assigned: ['length'] and ['name'] are properties
    of the function that are not writable, ['constructor'] is one of
    [%AsyncFunction.prototype%], and ['arguments'] and ['caller'] are
    accessors of [%Function.prototype%] whose setter throws. *)
Definition unassignable (key : string) : bool :=
  bool_decide (key ∈ ["length"; "name"; "constructor"; "arguments"; "caller"]).

(** [acc[key] = value], line 82, in the strict code of a module, [acc]
    being the accumulator and [value] a function.  For ['__proto__'] the
    assignment calls the setter inherited from [Object.prototype], which
    replaces the prototype and adds no own property.  For a key that the
    prototype chain answers with a property that is not writable, or with
    a setter that throws, it throws a [TypeError]: [None].  Else it adds
    the own property [key]. *)
Definition assign (key : string) (value : Action) (acc : object) : option object :=
  if decide (key = "__proto__") then Some (mkObject (Some value) (own acc))
  else
    match prototype acc with
    | Some _ =>
        if unassignable key then None
        else Some (mkObject (prototype acc) (<[key := value]> (own acc)))
    | None => Some (mkObject None (<[key := value]> (own acc)))
    end.

Definition makeCancellable (actions : list (string * Action)) : option object :=
  foldl (fun acc entry => acc ≫= assign entry.1 (actionWrapper entry.2))
    (Some (mkObject None ∅)) actions.

(** ** Lines 93-95: [cancelAction] *)

Definition cancelAction (actionId : ident) : M unit :=
  actionCanceller.cancelAction actionId.

(** ** Lines 107-120: [takeLatest] *)

(** [previousCalls.pop()] and [previousCalls.push(x)] on the array of the
    call site [site]; the last element of the list is the top. *)
Definition previousCalls_at (site : nat) (w : World) : list ident :=
  default [] (previousCalls w !! site).

Definition pop (site : nat) : M (option ident) :=
  fun w =>
    let a := previousCalls_at site w in
    (set_previousCalls <[site := removelast a]> w, Value (last a)).

Definition push (site : nat) (x : ident) : M unit :=
  modify (fun w => set_previousCalls <[site := (previousCalls_at site w ++ [x])%list]> w).

(** Lines 110-112.  Each turn pops one entry, so the length of the array on
    entry bounds the number of turns. *)
Fixpoint while_pending (turns : nat) (site : nat) : M unit :=
  match turns with
  | 0 => mret tt
  | S turns' =>
      let* n := gets (fun w => length (previousCalls_at site w)) in
      if bool_decide (0 < n) then
        let* top := pop site in
        let* _ := cancelAction (default None top) in
        while_pending turns' site
      else mret tt
  end.

(** The [name] property of a thrown value; [None] when reading it throws. *)
Definition name_of (e : exn) : option (option string) :=
  match e with
  | ActionCancelledError => Some (Some "ActionCancelledError")
  | Thrown name _ => Some name
  | ThrownNullish => None
  end.

(** [e.name] *)
Definition error_name (e : exn) : M (option string) :=
  match name_of e with
  | Some name => mret name
  | None => throw (TypeError "Cannot read property 'name' of undefined")
  end.

(** Lines 110-113: what an invocation does before it calls the action.  The
    length of the array on entry is the number of turns of the loop. *)
Definition supersede (site : nat) (context : Context) : M unit :=
  let* n := gets (fun w => length (previousCalls_at site w)) in
  let* _ := while_pending n site in
  push site (rootActionId context).

(** Lines 116-118: the [catch] clause. *)
Definition absorb (e : exn) : M jsval :=
  let* name := error_name e in
  if bool_decide (name ≠ Some "ActionCancelledError") then throw e
  else mret Undefined.

Definition takeLatest (site : nat) (action : Action) : Action :=
  fun context args =>
    let* _ := supersede site context in
    try_catch (await (action context args)) absorb.

(** ** Action bodies *)

(** How a call ended for its caller. *)
Inductive outcome (A : Type) : Type :=
| Returned (a : A)
| Threw (e : exn).
Arguments Returned {A} a.
Arguments Threw {A} e.

(** The body of a user action, as far as the library can tell: it returns
    or throws, calls [context.commit] or [context.dispatch] and goes on
    with what the call returned or threw (a body without [try] rethrows),
    awaits something else (a timer, a request, the promise of a dispatch),
    or calls the exported [cancelAction].  What the host does with a
    dispatch it received, such as starting another invocation, happens at
    a suspension of the body. *)
Inductive Body : Type :=
| Return (v : jsval)
| Throw (e : exn)
| Commit (args : list jsval) (k : outcome jsval -> Body)
| Dispatch (args : list jsval) (k : outcome jsval -> Body)
| Await (k : Body)
| CancelAction (actionId : ident) (k : Body).

(** The continuation of a call that is not inside [try]. *)
Definition unhandled (k : jsval -> Body) (o : outcome jsval) : Body :=
  match o with
  | Returned v => k v
  | Threw e => Throw e
  end.

Fixpoint attemptR {A} (r : Res A) : Res (outcome A) :=
  match r with
  | Value a => Value (Returned a)
  | Raise e => Value (Threw e)
  | Yield k => Yield (fun w => let (w', r') := k w in (w', attemptR r'))
  end.

Definition attempt {A} (m : M A) : M (outcome A) :=
  fun w => let (w1, r) := m w in (w1, attemptR r).

Definition suspend : M unit := fun w => (w, Yield (fun w' => (w', Value tt))).

Fixpoint interp (context : Context) (b : Body) : M jsval :=
  match b with
  | Return v => mret v
  | Throw e => throw e
  | Commit args k =>
      let* o := attempt (commit context args) in interp context (k o)
  | Dispatch args k =>
      let* o := attempt (dispatch context args) in interp context (k o)
  | Await k =>
      let* _ := suspend in interp context k
  | CancelAction actionId k =>
      let* _ := cancelAction actionId in interp context k
  end.

(** A user action: a body that may depend on the identifier it finds in its
    context and on its arguments. *)
Definition user (body : ident -> list jsval -> Body) : Action :=
  fun context args => interp context (body (rootActionId context) args).

(** ** The host store and the event loop *)

(** The entry points the host puts in the [n]-th context it creates. *)
Definition host_commit (n : nat) : HostFn :=
  fun args =>
    let* _ := modify (set_store (fun l => l ++ [(n, CommitCall args)])%list) in
    mret Undefined.

Definition host_dispatch (n : nat) : HostFn :=
  fun args =>
    let* _ := modify (set_store (fun l => l ++ [(n, DispatchCall args)])%list) in
    mret Undefined.

Definition host_context (n : nat) (inherited : ident) : Context :=
  {| rootActionId := inherited; commit := host_commit n; dispatch := host_dispatch n |}.

(** The calls that came through context [n]. *)
Definition calls_of (n : nat) (l : list (nat * call)) : list call :=
  snd <$> filter (fun e => e.1 = n) l.

(** What happens to the shared state while a task is suspended. *)
Definition Env : Type := World -> World.

(** [advance envs s]: resume the task at each of its suspension points,
    after the state changed as [envs] tell, as long as [envs] last. *)
Fixpoint advance {A} (envs : list Env) (s : World * Res A) : World * Res A :=
  match envs, s with
  | env :: envs', (w, Yield k) => advance envs' (k (env w))
  | _, _ => s
  end.

(** [run envs s]: the task settles after exactly the suspensions of
    [envs]. *)
Fixpoint run {A} (envs : list Env) (s : World * Res A) : option (World * outcome A) :=
  match s, envs with
  | (w, Value a), [] => Some (w, Returned a)
  | (w, Raise e), [] => Some (w, Threw e)
  | (w, Yield k), env :: envs' => run envs' (k (env w))
  | _, _ => None
  end.

(** The state change of a synchronous call made from outside. *)
Definition external {A} (m : M A) : Env := fun w => (m w).1.

Definition idle : Env := fun w => w.

(** A store with one registered action, its invocations numbered in
    dispatch order.  A dispatch from outside is a root one: the host hands
    it a new context, without identifier.  A nested dispatch, made from the
    body of an invocation, has the identifier of that invocation in its
    context.  A resumption runs one invocation up to its next suspension. *)
Record Sys : Type := mkSys {
  world : World;
  tasks : list (Res jsval);
}.

Inductive event : Type :=
| Dispatched (args : list jsval)
| Nested (inherited : ident) (args : list jsval)
| Resumed (i : nat)
| Cancelled (actionId : ident).

Definition step (action : Action) (ev : event) (s : Sys) : Sys :=
  match ev with
  | Dispatched args =>
      let (w', r) := action (host_context (length (tasks s)) None) args (world s) in
      mkSys w' (tasks s ++ [r])
  | Nested inherited args =>
      let (w', r) := action (host_context (length (tasks s)) inherited) args (world s) in
      mkSys w' (tasks s ++ [r])
  | Resumed i =>
      match tasks s !! i with
      | Some (Yield k) => let (w', r) := k (world s) in mkSys w' (<[i := r]> (tasks s))
      | _ => s
      end
  | Cancelled actionId => mkSys (external (cancelAction actionId) (world s)) (tasks s)
  end.

Definition exec (action : Action) (evs : list event) (s : Sys) : Sys :=
  foldl (fun s ev => step action ev s) s evs.

(** ** The actions of the test suite *)

(** The string under [key] in the payload, the first argument after the
    context. *)
Definition string_field (key : string) (args : list jsval) : string :=
  match args with
  | Obj fields :: _ =>
      match snd <$> list_find (fun f => f.1 = key) fields with
      | Some (_, Str s) => s
      | _ => ""
      end
  | _ => ""
  end.

(** [action1] of [tests/unit/actions.spec.js], lines 47-51: it sleeps,
    commits [setProp1] and dispatches [action2], whose promise it does not
    await. *)
Definition action1 (args : list jsval) : Body :=
  let prop1 := string_field "prop1" args in
  let prop2 := string_field "prop2" args in
  Await
    (Commit [Str "setProp1"; Obj [("prop1", Str (prop1 ++ prop2))]]
       (unhandled (fun _ =>
          Dispatch [Str "action2"; Obj [("prop2", Str prop2)]]
            (unhandled (fun _ => Return Undefined))))).

Definition payload (prop1 prop2 : string) : list jsval :=
  [Obj [("prop1", Str prop1); ("prop2", Str prop2)]].

(** The state at start-up, with a given random source. *)
Definition fresh_world (source : nat -> string) : World :=
  mkWorld ∅ ∅ source 0 [].

(** [Math.random()] returning 0.5 every time: [0.i] in base 36. *)
Definition half (_ : nat) : string := "0.i".

(** An action that commits, waits, and commits again. *)
Definition loading_then_set : Body :=
  Commit [Str "loading"]
    (unhandled (fun _ =>
       Await (Commit [Str "set"] (unhandled (fun _ => Return Undefined))))).

(** A parent that dispatches a child without awaiting it and returns after
    a short delay, and the child, which commits after a longer one:
    [async ({ dispatch }) => { dispatch('child'); await sleep(10) }] and
    [async ({ commit }) => { await sleep(100); commit('late') }]. *)
Definition parent_or_child (args : list jsval) : Body :=
  match args with
  | Str "child" :: _ =>
      Await (Commit [Str "late"] (unhandled (fun _ => Return Undefined)))
  | _ =>
      Dispatch [Str "child"] (unhandled (fun _ => Await (Return Undefined)))
  end.

(** The action that returns the identifier it finds in its context. *)
Definition report_id : Action :=
  user (fun id _ => Return (match id with Some s => Str s | None => Undefined end)).

(** [Math.random()] returning 0.5, then 0.25 ([0.9] in base 36). *)
Definition counting (n : nat) : string :=
  match n with
  | 0 => "0.i"
  | _ => "0.9"
  end.

(** ** Vocabulary of the statements *)

(** The context an action receives from the wrapper, lines 42-58. *)
Definition instrumented (context : Context) (id : ident) : Context :=
  {| rootActionId := id;
     commit := wrappedCommit id (commit context);
     dispatch := wrappedDispatch id (dispatch context) |}.

(** The identifier [uniqueId('action-')] makes of the [c]-th draw, and the
    one it returns in state [w]. *)
Definition drawn_id (source : nat -> string) (c : nat) : ident :=
  Some ("action-" ++ String.substring 2 16 (source c)).

Definition next_id (w : World) : ident :=
  drawn_id (random_source w) (random_count w).

(** The identifier an invocation runs under, lines 41-43. *)
Definition invocation_id (context : Context) (w : World) : ident :=
  if truthy (rootActionId context) then rootActionId context else next_id w.

Definition settled {A} (r : Res A) : Prop :=
  match r with
  | Yield _ => False
  | _ => True
  end.

(** What the code of invocation [n], running under identifier [id], may do
    to the state between two suspensions, its last turn apart: the registry
    only grows, the store only receives calls through context [n], and none
    when [id] was cancelled; the arrays and the random source are as they
    were. *)
Record turn (n : nat) (id : ident) (w w' : World) : Prop := mkTurn {
  turn_registry : cancelledActions w ⊆ cancelledActions w';
  turn_store :
    exists l, store w' = (store w ++ l)%list
              ∧ Forall (fun e => e.1 = n) l
              ∧ (id ∈ cancelledActions w -> l = []);
  turn_previousCalls : previousCalls w' = previousCalls w;
  turn_random_source : random_source w' = random_source w;
  turn_random_count : random_count w' = random_count w;
}.

(** A suspended call all of whose turns are as above. *)
Inductive quiet {A} (n : nat) (id : ident) : Res A -> Prop :=
| quiet_Value (a : A) : quiet n id (Value a)
| quiet_Raise (e : exn) : quiet n id (Raise e)
| quiet_Yield (k : World -> World * Res A) :
    (forall w, turn n id w (k w).1) ->
    (forall w, quiet n id (k w).2) ->
    quiet n id (Yield k).

(** The same for a wrapped invocation, whose last turn may remove [id],
    and nothing else, from the registry. *)
Record closing_turn {A} (n : nat) (id : ident) (w w' : World) (r' : Res A) : Prop :=
  mkClosingTurn {
  closing_others : forall x, x ≠ id -> x ∈ cancelledActions w -> x ∈ cancelledActions w';
  closing_own : id ∈ cancelledActions w -> id ∈ cancelledActions w' ∨ settled r';
  closing_store :
    exists l, store w' = (store w ++ l)%list
              ∧ Forall (fun e => e.1 = n) l
              ∧ (id ∈ cancelledActions w -> l = []);
  closing_previousCalls : previousCalls w' = previousCalls w;
  closing_random_source : random_source w' = random_source w;
  closing_random_count : random_count w' = random_count w;
}.

Inductive guarded {A} (n : nat) (id : ident) : Res A -> Prop :=
| guarded_Value (a : A) : guarded n id (Value a)
| guarded_Raise (e : exn) : guarded n id (Raise e)
| guarded_Yield (k : World -> World * Res A) :
    (forall w, closing_turn n id w (k w).1 (k w).2) ->
    (forall w, guarded n id (k w).2) ->
    guarded n id (Yield k).

(** An environment step that leaves invocation [n] and its identifier
    alone: it neither removes [id] from the registry nor makes calls
    through context [n]. *)
Definition bystander (n : nat) (id : ident) (env : Env) : Prop :=
  forall w,
    (id ∈ cancelledActions w -> id ∈ cancelledActions (env w))
    ∧ calls_of n (store (env w)) = calls_of n (store w).

(** ** A store whose one action is a wrapped take-latest action *)

(** The action of the store: a body under [takeLatest] under the wrapper,
    as [makeCancellable({ name: takeLatest(body) })] registers it. *)
Definition latest (site : nat) (body : ident -> list jsval -> Body) : Action :=
  actionWrapper (takeLatest site (user body)).

(** What holds of the system after any schedule: [c0] draws were made
    before it started, one per invocation since; the array of the call
    site holds the identifier of the latest invocation; every task is a
    wrapped invocation under its own identifier; every invocation but the
    latest is settled or cancelled. *)
Record invariant (site : nat) (source : nat -> string) (c0 : nat) (s : Sys) : Prop :=
  mkInvariant {
  inv_source : random_source (world s) = source;
  inv_count : random_count (world s) = c0 + length (tasks s);
  inv_pending :
    previousCalls_at site (world s)
    = match length (tasks s) with
      | 0 => []
      | S m => [drawn_id source (c0 + m)]
      end;
  inv_guarded :
    forall i r, tasks s !! i = Some r -> guarded i (drawn_id source (c0 + i)) r;
  inv_superseded :
    forall i r, tasks s !! i = Some r -> S i < length (tasks s) ->
      settled r ∨ drawn_id source (c0 + i) ∈ cancelledActions (world s);
}.

(** The identifiers of the first [N] invocations are pairwise distinct. *)
Definition distinct_ids (source : nat -> string) (c0 N : nat) : Prop :=
  NoDup ((fun i => drawn_id source (c0 + i)) <$> seq 0 N).

(** The number of invocations a schedule starts. *)
Fixpoint dispatches (evs : list event) : nat :=
  match evs with
  | [] => 0
  | Dispatched _ :: evs' => S (dispatches evs')
  | Nested _ _ :: evs' => S (dispatches evs')
  | _ :: evs' => dispatches evs'
  end.

(** A schedule without nested dispatches. *)
Definition root_event (ev : event) : Prop :=
  match ev with
  | Nested _ _ => False
  | _ => True
  end.

(** ** Further vocabulary *)

(** The state in which the wrapper calls the action: one draw later for a
    root invocation, the state of the call for a nested one. *)
Definition entry_state (context : Context) (w : World) : World :=
  if truthy (rootActionId context) then w else set_random_count S w.

(** A body that never calls [cancelAction] with [id]. *)
Fixpoint never_cancels (id : ident) (b : Body) : Prop :=
  match b with
  | Return _ | Throw _ => True
  | Commit _ k | Dispatch _ k => forall o, never_cancels id (k o)
  | Await k => never_cancels id k
  | CancelAction x k => x ≠ id ∧ never_cancels id k
  end.

(** An environment step that does not put [id] in the registry, and one
    that does not take [x] out of it. *)
Definition keeps_out (id : ident) (env : Env) : Prop :=
  forall w, id ∉ cancelledActions w -> id ∉ cancelledActions (env w).

Definition keeps_in (x : ident) (env : Env) : Prop :=
  forall w, x ∈ cancelledActions w -> x ∈ cancelledActions (env w).

(** An environment step that only adds calls to the store. *)
Definition appends (env : Env) : Prop :=
  forall w, store w `prefix_of` store (env w).

(** ** A store with nested dispatches *)







(** * Properties *)

(** ** The registry *)

Lemma World_eq (w1 w2 : World) :
  cancelledActions w1 = cancelledActions w2 ->
  previousCalls w1 = previousCalls w2 ->
  random_source w1 = random_source w2 ->
  random_count w1 = random_count w2 ->
  store w1 = store w2 ->
  w1 = w2.
Proof. destruct w1, w2; simpl; intros; subst; reflexivity. Qed.

Lemma cancelAction_run (id : ident) (w : World) :
  cancelAction id w = (set_cancelledActions (fun s => {[id]} ∪ s) w, Value tt).
Proof. reflexivity. Qed.

Lemma isActionCancelled_run (id : ident) (w : World) :
  actionCanceller.isActionCancelled id w
  = (w, Value (bool_decide (id ∈ cancelledActions w))).
Proof. reflexivity. Qed.

(** C9. [cancelAction] twice is [cancelAction] once; [cleanAction] of an
    absent identifier changes nothing (so it is idempotent too);
    [isActionCancelled] leaves the state as it is; cancelling one
    identifier does not change the answer for any other. *)
Theorem registry_operations_idempotent (id : ident) (w : World) :
  (cancelAction id (cancelAction id w).1).1 = (cancelAction id w).1
  ∧ (id ∉ cancelledActions w -> (actionCanceller.cleanAction id w).1 = w)
  ∧ (actionCanceller.cleanAction id (actionCanceller.cleanAction id w).1).1
    = (actionCanceller.cleanAction id w).1
  ∧ (actionCanceller.isActionCancelled id w).1 = w
  ∧ (forall id' : ident, id' ≠ id ->
       (actionCanceller.isActionCancelled id' (cancelAction id w).1).2
       = (actionCanceller.isActionCancelled id' w).2).
Proof.
  repeat split.
  - apply World_eq; simpl; try done; set_solver.
  - intros Hid. apply World_eq; simpl; try done; set_solver.
  - apply World_eq; simpl; try done; set_solver.
  - intros id' Hne. simpl. f_equal. apply bool_decide_ext. set_solver.
Qed.

Lemma registry_operations_idempotent_witness :
  let w := fresh_world half in
  (Some "a" ∉ cancelledActions w)
  ∧ (actionCanceller.cleanAction (Some "a") w).1 = w
  ∧ (actionCanceller.isActionCancelled (Some "b") (cancelAction (Some "a") w).1).2
    = (actionCanceller.isActionCancelled (Some "b") w).2.
Proof.
  intros w.
  destruct (registry_operations_idempotent (Some "a") w) as (_ & Hclean & _ & _ & Hother).
  assert (Hfree : Some "a" ∉ cancelledActions w) by (simpl; set_solver).
  split; [exact Hfree|]. split; [exact (Hclean Hfree)|].
  apply Hother. discriminate.
Defined.

(** ** The intercepting entry points *)

Lemma wrappedCommit_run (id : ident) (orig : HostFn) (args : list jsval) (w : World) :
  wrappedCommit id orig args w
  = if bool_decide (id ∈ cancelledActions w) then (w, Raise ActionCancelledError)
    else orig args w.
Proof.
  unfold wrappedCommit, bind. rewrite isActionCancelled_run. simpl.
  destruct (bool_decide (id ∈ cancelledActions w)); reflexivity.
Qed.

Lemma wrappedDispatch_run (id : ident) (orig : HostFn) (args : list jsval) (w : World) :
  wrappedDispatch id orig args w
  = if bool_decide (id ∈ cancelledActions w) then (w, Raise ActionCancelledError)
    else orig args w.
Proof.
  unfold wrappedDispatch, bind. rewrite isActionCancelled_run. simpl.
  destruct (bool_decide (id ∈ cancelledActions w)); reflexivity.
Qed.

(** C6. An intercepting entry point called while its identifier is in the
    registry throws [ActionCancelledError] and leaves the state as it is,
    so the original is not called; called while the identifier is not in
    the registry it is the original called with the same arguments: same
    state change, same return value, same exception.  Hence, for an
    original that does not itself end in [ActionCancelledError], the call
    ends in that error exactly when the identifier is in the registry. *)
Theorem interceptor_checks_then_forwards
    (id : ident) (orig : HostFn) (args : list jsval) (w : World) :
  (id ∈ cancelledActions w ->
     wrappedCommit id orig args w = (w, Raise ActionCancelledError)
     ∧ wrappedDispatch id orig args w = (w, Raise ActionCancelledError))
  ∧ (id ∉ cancelledActions w ->
     wrappedCommit id orig args w = orig args w
     ∧ wrappedDispatch id orig args w = orig args w)
  ∧ ((orig args w).2 ≠ Raise ActionCancelledError ->
     ((wrappedCommit id orig args w).2 = Raise ActionCancelledError
        <-> id ∈ cancelledActions w)
     ∧ ((wrappedDispatch id orig args w).2 = Raise ActionCancelledError
        <-> id ∈ cancelledActions w)).
Proof.
  rewrite wrappedCommit_run, wrappedDispatch_run.
  case_bool_decide as Hid; repeat split; intros; simpl in *; try done.
Qed.

Lemma interceptor_checks_then_forwards_witness :
  (wrappedCommit (Some "a") (host_commit 0) [Str "m"]
     (cancelAction (Some "a") (fresh_world half)).1).2 = Raise ActionCancelledError
  ∧ store (wrappedCommit (Some "a") (host_commit 0) [Str "m"] (fresh_world half)).1
    = [(0, CommitCall [Str "m"])]
  ∧ ((wrappedDispatch (Some "a") (host_dispatch 0) [Str "m"] (fresh_world half)).2
       = Raise ActionCancelledError
     <-> Some "a" ∈ cancelledActions (fresh_world half)).
Proof.
  split; [|split].
  - destruct (interceptor_checks_then_forwards (Some "a") (host_commit 0) [Str "m"]
                (cancelAction (Some "a") (fresh_world half)).1) as (Hc & _ & _).
    destruct Hc as [-> _]; [simpl; set_solver|reflexivity].
  - destruct (interceptor_checks_then_forwards (Some "a") (host_commit 0) [Str "m"]
                (fresh_world half)) as (_ & Hn & _).
    destruct Hn as [-> _]; [simpl; set_solver|reflexivity].
  - destruct (interceptor_checks_then_forwards (Some "a") (host_dispatch 0) [Str "m"]
                (fresh_world half)) as (_ & _ & Hi).
    apply Hi. simpl. discriminate.
Defined.

(** ** Running computations step by step *)

Lemma bind_value {A B} (m : M A) (k : A -> M B) (w w1 : World) (a : A) :
  m w = (w1, Value a) -> bind m k w = k a w1.
Proof. unfold bind. intros ->. reflexivity. Qed.

Lemma bind_raise {A B} (m : M A) (k : A -> M B) (w w1 : World) (e : exn) :
  m w = (w1, Raise e) -> bind m k w = (w1, Raise e).
Proof. unfold bind. intros ->. reflexivity. Qed.

Lemma gets_run {A} (f : World -> A) (w : World) : gets f w = (w, Value (f w)).
Proof. reflexivity. Qed.

Lemma modify_run (f : World -> World) (w : World) : modify f w = (f w, Value tt).
Proof. reflexivity. Qed.

Lemma pop_run (site : nat) (w : World) :
  pop site w
  = (set_previousCalls <[site := removelast (previousCalls_at site w)]> w,
     Value (last (previousCalls_at site w))).
Proof. reflexivity. Qed.

Lemma push_run (site : nat) (x : ident) (w : World) :
  push site x w
  = (set_previousCalls <[site := (previousCalls_at site w ++ [x])%list]> w, Value tt).
Proof. reflexivity. Qed.

(** ** The take-latest policy: superseding *)

Lemma previousCalls_at_insert (site site' : nat) (l : list ident) (w : World) :
  previousCalls_at site' (set_previousCalls <[site := l]> w)
  = if decide (site = site') then l else previousCalls_at site' w.
Proof.
  unfold previousCalls_at. simpl. rewrite lookup_insert.
  destruct (decide (site = site')); reflexivity.
Qed.

(** The loop of lines 110-112 ends with the array empty and every entry it
    held cancelled; nothing else changes. *)
Lemma while_pending_run (n site : nat) (w : World) :
  length (previousCalls_at site w) <= n ->
  exists w',
    while_pending n site w = (w', Value tt)
    ∧ previousCalls_at site w' = []
    ∧ cancelledActions w' = list_to_set (previousCalls_at site w) ∪ cancelledActions w
    ∧ (forall site', site' ≠ site -> previousCalls_at site' w' = previousCalls_at site' w)
    ∧ random_source w' = random_source w
    ∧ random_count w' = random_count w
    ∧ store w' = store w.
Proof.
  revert w. induction n as [|n IH]; intros w Hlen.
  - exists w. destruct (previousCalls_at site w) eqn:Ha; simpl in Hlen; [|lia].
    repeat split; try done. simpl. set_solver.
  - cbn [while_pending]. rewrite (bind_value _ _ _ _ _ (gets_run _ w)).
    destruct (previousCalls_at site w) as [|x0 l0] eqn:Ha.
    + exists w. rewrite Ha. repeat split; try done. simpl. set_solver.
    + destruct (exists_last (l := x0 :: l0)) as (l & x & Hl); [done|].
      rewrite Hl in *. clear Hl x0 l0.
      rewrite bool_decide_eq_true_2 by (rewrite length_app; simpl; lia).
      rewrite (bind_value _ _ _ _ _ (pop_run site w)).
      rewrite Ha, removelast_last, last_snoc. cbn [default].
      rewrite (bind_value _ _ _ _ _ (cancelAction_run x _)).
      set (w1 := set_cancelledActions _ _).
      assert (Hw1 : previousCalls_at site w1 = l).
      { unfold w1, previousCalls_at. simpl. by rewrite lookup_insert_eq. }
      destruct (IH w1) as (w' & Hrun & Hempty & Hreg & Hothers & Hsrc & Hcnt & Hstore).
      { rewrite Hw1. rewrite length_app in Hlen. simpl in Hlen. lia. }
      exists w'. rewrite Hrun. repeat split; try done.
      * rewrite Hreg, Hw1. unfold w1. simpl. rewrite list_to_set_app_L. simpl. set_solver.
      * intros site' Hne. rewrite Hothers by done. unfold w1, previousCalls_at. simpl.
        by rewrite lookup_insert_ne.
Qed.

Lemma supersede_run (site : nat) (context : Context) (w : World) :
  exists w1,
    supersede site context w = (w1, Value tt)
    ∧ previousCalls_at site w1 = [rootActionId context]
    ∧ cancelledActions w1 = list_to_set (previousCalls_at site w) ∪ cancelledActions w
    ∧ (forall site', site' ≠ site -> previousCalls_at site' w1 = previousCalls_at site' w)
    ∧ random_source w1 = random_source w
    ∧ random_count w1 = random_count w
    ∧ store w1 = store w.
Proof.
  unfold supersede. rewrite (bind_value _ _ _ _ _ (gets_run _ w)).
  destruct (while_pending_run (length (previousCalls_at site w)) site w)
    as (w' & Hrun & Hempty & Hreg & Hothers & Hsrc & Hcnt & Hstore); [done|].
  rewrite (bind_value _ _ _ _ _ Hrun), push_run.
  eexists. split; [reflexivity|]. rewrite previousCalls_at_insert, decide_True by done.
  rewrite Hempty. repeat split; try done.
  intros site' Hne. rewrite previousCalls_at_insert, decide_False by done. by apply Hothers.
Qed.

(** C5. An invocation of a take-latest action calls the underlying action
    in a state [w1] reached by [supersede]: there the array of the call
    site holds exactly the identifier of this invocation, every identifier
    it held on entry is in the registry, the registry holds nothing else
    that it did not hold before, and the arrays of the other call sites are
    as they were. *)
Theorem takeLatest_supersedes_before_calling
    (site : nat) (action : Action) (context : Context) (args : list jsval) (w : World) :
  exists w1,
    supersede site context w = (w1, Value tt)
    ∧ takeLatest site action context args w
      = try_catch (await (action context args)) absorb w1
    ∧ previousCalls_at site w1 = [rootActionId context]
    ∧ (forall id, id ∈ previousCalls_at site w -> id ∈ cancelledActions w1)
    ∧ cancelledActions w1 = list_to_set (previousCalls_at site w) ∪ cancelledActions w
    ∧ (forall site', site' ≠ site -> previousCalls_at site' w1 = previousCalls_at site' w).
Proof.
  destruct (supersede_run site context w) as (w1 & Hrun & Hone & Hreg & Hothers & _).
  exists w1. split; [done|]. split.
  - unfold takeLatest. by rewrite (bind_value _ _ _ _ _ Hrun).
  - split; [done|]. split; [|done]. intros id Hid. rewrite Hreg. set_solver.
Qed.

Lemma takeLatest_supersedes_before_calling_witness :
  exists w1,
    supersede 0 (host_context 0 (Some "c"))
      (mkWorld ∅ {[0 := [Some "a"; Some "b"]]} half 0 []) = (w1, Value tt)
    ∧ previousCalls_at 0 w1 = [Some "c"]
    ∧ Some "a" ∈ cancelledActions w1 ∧ Some "b" ∈ cancelledActions w1.
Proof.
  destruct (takeLatest_supersedes_before_calling 0 (user (fun _ _ => Return Undefined))
              (host_context 0 (Some "c")) [] (mkWorld ∅ {[0 := [Some "a"; Some "b"]]} half 0 []))
    as (w1 & Hrun & _ & Hone & Hall & _ & _).
  exists w1. split; [exact Hrun|]. split; [exact Hone|].
  split; apply Hall; unfold previousCalls_at; simpl; rewrite lookup_singleton_eq; simpl;
    set_solver.
Defined.

(** ** Settling under a schedule *)

Lemma run_awaitR {A} (envs : list Env) (tick : Env) (w : World) (r : Res A)
    (wf : World) (o : outcome A) :
  run envs (w, r) = Some (wf, o) ->
  run (envs ++ [tick]) (w, awaitR r) = Some (tick wf, o).
Proof.
  revert w r. induction envs as [|env envs IH]; intros w r Hrun.
  - destruct r; simpl in *; congruence.
  - destruct r as [a|e|k]; simpl in *; try discriminate.
    destruct (k (env w)) as [w' r']. by apply IH.
Qed.

Lemma run_bindR_value {A B} (envs envs2 : list Env) (w : World) (r : Res A)
    (f : A -> M B) (wf : World) (a : A) :
  run envs (w, r) = Some (wf, Returned a) ->
  run (envs ++ envs2) (bindR r f w) = run envs2 (f a wf).
Proof.
  revert w r. induction envs as [|env envs IH]; intros w r Hrun.
  - destruct r; simpl in *; try discriminate. by simplify_eq.
  - destruct r as [a'|e|k]; simpl in *; try discriminate.
    destruct (k (env w)) as [w' r']. by apply IH.
Qed.

Lemma run_bindR_raise {A B} (envs : list Env) (w : World) (r : Res A)
    (f : A -> M B) (wf : World) (e : exn) :
  run envs (w, r) = Some (wf, Threw e) ->
  run envs (bindR r f w) = Some (wf, Threw e).
Proof.
  revert w r. induction envs as [|env envs IH]; intros w r Hrun.
  - destruct r; simpl in *; try discriminate. by simplify_eq.
  - destruct r as [a'|e'|k]; simpl in *; try discriminate.
    destruct (k (env w)) as [w' r']. by apply IH.
Qed.

Lemma run_catchR_value {A} (envs : list Env) (w : World) (r : Res A)
    (h : exn -> M A) (wf : World) (a : A) :
  run envs (w, r) = Some (wf, Returned a) ->
  run envs (catchR r h w) = Some (wf, Returned a).
Proof.
  revert w r. induction envs as [|env envs IH]; intros w r Hrun.
  - destruct r; simpl in *; try discriminate. by simplify_eq.
  - destruct r as [a'|e'|k]; simpl in *; try discriminate.
    destruct (k (env w)) as [w' r']. by apply IH.
Qed.

Lemma run_catchR_raise {A} (envs envs2 : list Env) (w : World) (r : Res A)
    (h : exn -> M A) (wf : World) (e : exn) :
  run envs (w, r) = Some (wf, Threw e) ->
  run (envs ++ envs2) (catchR r h w) = run envs2 (h e wf).
Proof.
  revert w r. induction envs as [|env envs IH]; intros w r Hrun.
  - destruct r; simpl in *; try discriminate. by simplify_eq.
  - destruct r as [a'|e'|k]; simpl in *; try discriminate.
    destruct (k (env w)) as [w' r']. by apply IH.
Qed.

(** ** The action wrapper: root and nested invocations *)

Lemma truthy_next_id (w : World) : truthy (next_id w) = true.
Proof. reflexivity. Qed.

Lemma actionWrapper_root (action : Action) (context : Context) (args : list jsval)
    (w : World) :
  truthy (rootActionId context) = false ->
  actionWrapper action context args w
  = (let* ret := await (action (instrumented context (next_id w)) args) in
     let* _ := actionCanceller.cleanAction (next_id w) in
     mret ret) (set_random_count S w).
Proof. intros Hroot. unfold actionWrapper. rewrite Hroot. reflexivity. Qed.

Lemma actionWrapper_nested (action : Action) (context : Context) (args : list jsval)
    (w : World) :
  truthy (rootActionId context) = true ->
  actionWrapper action context args w
  = (let* ret := await (action (instrumented context (rootActionId context)) args) in
     mret ret) w.
Proof. intros Hnested. unfold actionWrapper. rewrite Hnested. reflexivity. Qed.

(** A nested invocation ends as its action ends, one turn later, in the
    state the action and the environment left. *)
Lemma actionWrapper_nested_run (action : Action) (context : Context)
    (args : list jsval) (w : World) (envs : list Env) (tick : Env)
    (wf : World) (o : outcome jsval) :
  truthy (rootActionId context) = true ->
  run envs (action (instrumented context (rootActionId context)) args w) = Some (wf, o) ->
  run (envs ++ [tick]) (actionWrapper action context args w) = Some (tick wf, o).
Proof.
  intros Hnested Hrun. rewrite actionWrapper_nested by done.
  unfold bind, await.
  destruct (action _ args w) as [w1 r] eqn:Hact.
  pose proof (run_awaitR _ tick _ _ _ _ Hrun) as Hawait.
  destruct o as [v|e].
  - rewrite <- (app_nil_r (envs ++ [tick])).
    by rewrite (run_bindR_value _ _ _ _ _ _ _ Hawait).
  - by rewrite (run_bindR_raise _ _ _ _ _ _ Hawait).
Qed.

(** A root invocation whose action returns cleans its identifier in its
    last turn; one whose action throws ends there, the registry as the
    action and the environment left it. *)
Lemma actionWrapper_root_run (action : Action) (context : Context)
    (args : list jsval) (w : World) (envs : list Env) (tick : Env)
    (wf : World) (o : outcome jsval) :
  truthy (rootActionId context) = false ->
  run envs (action (instrumented context (next_id w)) args (set_random_count S w))
    = Some (wf, o) ->
  run (envs ++ [tick]) (actionWrapper action context args w)
  = Some (match o with
          | Returned _ => (actionCanceller.cleanAction (next_id w) (tick wf)).1
          | Threw _ => tick wf
          end, o).
Proof.
  intros Hroot Hrun. rewrite actionWrapper_root by done.
  unfold bind at 1, await.
  destruct (action _ args _) as [w1 r] eqn:Hact.
  pose proof (run_awaitR _ tick _ _ _ _ Hrun) as Hawait.
  destruct o as [v|e].
  - rewrite <- (app_nil_r (envs ++ [tick])).
    by rewrite (run_bindR_value _ _ _ _ _ _ _ Hawait).
  - by rewrite (run_bindR_raise _ _ _ _ _ _ Hawait).
Qed.

(** C7. An invocation whose context carries no identifier draws a fresh
    one, a non-empty string, hands the action a context carrying it, and
    after the action returned removes it from the registry: in the state
    the caller finds, the identifier is not cancelled, also when it was
    cancelled during the run, and every other identifier is as it was.  An
    invocation whose context carries one draws nothing, hands the action a
    context carrying the same identifier, and ends, whatever the action
    did, in the state the action and the environment left: it never
    cleans, and an identifier that is cancelled then, its own included,
    stays cancelled. *)
Theorem root_draws_nested_inherits
    (action : Action) (context : Context) (args : list jsval) (w : World) :
  (truthy (rootActionId context) = false ->
     invocation_id context w = next_id w
     ∧ truthy (next_id w) = true
     ∧ rootActionId (instrumented context (next_id w)) = next_id w
     ∧ actionWrapper action context args w
       = (let* ret := await (action (instrumented context (next_id w)) args) in
          let* _ := actionCanceller.cleanAction (next_id w) in
          mret ret) (set_random_count S w)
     ∧ (forall envs tick wf v,
          run envs (action (instrumented context (next_id w)) args (set_random_count S w))
            = Some (wf, Returned v) ->
          exists wfin,
            run (envs ++ [tick]) (actionWrapper action context args w)
              = Some (wfin, Returned v)
            ∧ wfin = (actionCanceller.cleanAction (next_id w) (tick wf)).1
            ∧ (next_id w ∉ cancelledActions wfin)
            ∧ (forall x, x ≠ next_id w ->
                 (x ∈ cancelledActions wfin <-> x ∈ cancelledActions (tick wf)))))
  ∧ (truthy (rootActionId context) = true ->
     invocation_id context w = rootActionId context
     ∧ rootActionId (instrumented context (rootActionId context)) = rootActionId context
     ∧ actionWrapper action context args w
       = (let* ret := await (action (instrumented context (rootActionId context)) args) in
          mret ret) w
     ∧ (forall envs tick wf o,
          run envs (action (instrumented context (rootActionId context)) args w)
            = Some (wf, o) ->
          exists wfin,
            run (envs ++ [tick]) (actionWrapper action context args w) = Some (wfin, o)
            ∧ wfin = tick wf
            ∧ (forall x, x ∈ cancelledActions (tick wf) -> x ∈ cancelledActions wfin)
            ∧ (rootActionId context ∈ cancelledActions (tick wf) ->
               rootActionId context ∈ cancelledActions wfin))).
Proof.
  split; intros Hid.
  - split; [unfold invocation_id; by rewrite Hid|].
    split; [reflexivity|]. split; [reflexivity|].
    split; [by apply actionWrapper_root|].
    intros envs tick wf v Hrun.
    rewrite (actionWrapper_root_run _ _ _ _ _ tick _ _ Hid Hrun).
    eexists. split; [reflexivity|]. split; [reflexivity|]. simpl.
    split; [set_solver|]. intros x Hx. set_solver.
  - split; [unfold invocation_id; by rewrite Hid|].
    split; [reflexivity|].
    split; [by apply actionWrapper_nested|].
    intros envs tick wf o Hrun. exists (tick wf).
    split; [by apply actionWrapper_nested_run|]. split; [done|]. split; [done|done].
Qed.

Lemma root_draws_nested_inherits_witness :
  (exists wfin,
     run [external (cancelAction (Some "action-i")); idle]
       (actionWrapper (user (fun _ _ => Await (Return Undefined))) (host_context 0 None) []
          (fresh_world half))
     = Some (wfin, Returned Undefined)
     ∧ (Some "action-i" ∉ cancelledActions wfin))
  ∧ (exists wfin,
       run [idle] (actionWrapper (user (fun _ _ => Return Undefined))
                     (host_context 1 (Some "action-i")) []
                     (cancelAction (Some "action-i") (fresh_world half)).1)
       = Some (wfin, Returned Undefined)
       ∧ Some "action-i" ∈ cancelledActions wfin).
Proof.
  split.
  - destruct (root_draws_nested_inherits (user (fun _ _ => Await (Return Undefined)))
                (host_context 0 None) [] (fresh_world half)) as [Hroot _].
    destruct (Hroot eq_refl) as (_ & _ & _ & _ & Hrun).
    destruct (Hrun [external (cancelAction (Some "action-i"))] idle _ Undefined eq_refl)
      as (wfin & Hfin & _ & Hclean & _).
    exists wfin. split; [exact Hfin|exact Hclean].
  - destruct (root_draws_nested_inherits (user (fun _ _ => Return Undefined))
                (host_context 1 (Some "action-i")) []
                (cancelAction (Some "action-i") (fresh_world half)).1) as [_ Hnested].
    destruct (Hnested eq_refl) as (_ & _ & _ & Hrun).
    destruct (Hrun [] idle _ (Returned Undefined) eq_refl) as (wfin & Hfin & _ & _ & Hown).
    exists wfin. split; [exact Hfin|]. apply Hown. simpl. set_solver.
Defined.

(** ** [makeCancellable] *)

(** Once an assignment has thrown, the reduction is over. *)
Lemma reduce_thrown (actions : list (string * Action)) :
  foldl (fun acc entry => acc ≫= assign entry.1 (actionWrapper entry.2)) None actions
  = None.
Proof. by induction actions as [|entry actions IH]. Qed.

(** The object the reduction ends with, from any accumulator. *)
Lemma reduce_result (actions : list (string * Action)) (acc obj : object) :
  NoDup actions.*1 ->
  foldl (fun acc entry => acc ≫= assign entry.1 (actionWrapper entry.2)) (Some acc) actions
  = Some obj ->
  (forall key action, (key, action) ∈ actions -> key ≠ "__proto__" ->
     own obj !! key = Some (actionWrapper action))
  ∧ (forall key, key ∉ actions.*1 ∨ key = "__proto__" -> own obj !! key = own acc !! key)
  ∧ (forall f, ("__proto__", f) ∈ actions -> prototype obj = Some (actionWrapper f))
  ∧ ("__proto__" ∉ actions.*1 -> prototype obj = prototype acc).
Proof.
  revert acc. induction actions as [|[k a] actions IH]; intros acc Hnodup Hfold.
  { simpl in Hfold. simplify_eq. split; [|split; [|split]]; try done.
    - intros key action Hin. by apply elem_of_nil in Hin.
    - intros f Hin. by apply elem_of_nil in Hin. }
  rewrite fmap_cons in Hnodup. apply NoDup_cons in Hnodup as [Hk Hnodup].
  cbn [foldl] in Hfold. cbn [mbind option_bind fst snd] in Hfold.
  destruct (assign k (actionWrapper a) acc) as [acc'|] eqn:Hassign;
    [|by rewrite reduce_thrown in Hfold].
  destruct (IH acc' Hnodup Hfold) as (Hin & Hout & Hproto & Hsame).
  assert (Hown : forall key, key ≠ k ∨ key = "__proto__" -> own acc' !! key = own acc !! key).
  { intros key Hkey. unfold assign in Hassign.
    destruct (decide (k = "__proto__")) as [->|Hne]; [by simplify_eq|].
    assert (key ≠ k) by (destruct Hkey; congruence).
    destruct (prototype acc); [destruct (unassignable k); [done|]|];
      simplify_eq; cbn [own]; by rewrite lookup_insert_ne. }
  split; [|split; [|split]].
  - intros key action Hel Hkey. apply elem_of_cons in Hel as [Heq|Hel].
    + simplify_eq. rewrite Hout by by left.
      unfold assign in Hassign. rewrite decide_False in Hassign by done.
      destruct (prototype acc); [destruct (unassignable k); [done|]|];
        simplify_eq; cbn [own]; by rewrite lookup_insert_eq.
    + by apply Hin.
  - intros key Hkey. rewrite Hout.
    + apply Hown. destruct Hkey as [Hkey|Hkey]; [left|by right].
      intros ->. apply Hkey. rewrite fmap_cons. apply elem_of_cons. by left.
    + destruct Hkey as [Hkey|Hkey]; [left|by right].
      intros Hel. apply Hkey. rewrite fmap_cons. apply elem_of_cons. by right.
  - intros f Hel. apply elem_of_cons in Hel as [Heq|Hel]; [|by apply Hproto].
    simplify_eq. rewrite Hsame by done.
    unfold assign in Hassign. rewrite decide_True in Hassign by done. by simplify_eq.
  - intros Hnone. rewrite fmap_cons in Hnone. apply not_elem_of_cons in Hnone as [Hne Hnone].
    rewrite Hsame by done. unfold assign in Hassign. cbn [fst] in Hne.
    rewrite decide_False in Hassign by done.
    destruct (prototype acc); [destruct (unassignable k); [done|]|]; by simplify_eq.
Qed.

(** No assignment throws when no key is one of those a function keeps to
    itself, or when the prototype is never replaced. *)
Lemma reduce_returns (actions : list (string * Action)) (acc : object) :
  (prototype acc = None ∧ "__proto__" ∉ actions.*1)
  ∨ (forall key, key ∈ actions.*1 -> unassignable key = false) ->
  is_Some (foldl (fun acc entry => acc ≫= assign entry.1 (actionWrapper entry.2))
             (Some acc) actions).
Proof.
  revert acc. induction actions as [|[k a] actions IH]; intros acc Hsafe; [by eexists|].
  cbn [foldl]. cbn [mbind option_bind fst snd]. rewrite fmap_cons in Hsafe. cbn [fst] in Hsafe.
  destruct Hsafe as [[Hproto Hnone]|Hkeys].
  - apply not_elem_of_cons in Hnone as [Hne Hnone].
    unfold assign. rewrite decide_False, Hproto by done. apply IH. by left.
  - assert (unassignable k = false) as Hk by (apply Hkeys, elem_of_cons; by left).
    assert (forall key, key ∈ actions.*1 -> unassignable key = false) as Hrest.
    { intros key Hel. apply Hkeys, elem_of_cons. by right. }
    unfold assign. rewrite Hk.
    destruct (decide (k = "__proto__")); [|destruct (prototype acc)]; apply IH; by right.
Qed.

(** Once the prototype is a function, the first key that the function
    keeps to itself makes the assignment throw. *)
Lemma reduce_throws (actions : list (string * Action)) (acc : object) (key : string) :
  is_Some (prototype acc) -> key ∈ actions.*1 -> unassignable key = true ->
  foldl (fun acc entry => acc ≫= assign entry.1 (actionWrapper entry.2)) (Some acc) actions
  = None.
Proof.
  revert acc. induction actions as [|[k a] actions IH]; intros acc Hproto Hel Hkey.
  { by apply elem_of_nil in Hel. }
  cbn [foldl]. cbn [mbind option_bind fst snd]. unfold assign.
  destruct (decide (k = "__proto__")) as [->|Hne].
  - apply IH; [by eexists| |done].
    rewrite fmap_cons in Hel. apply elem_of_cons in Hel as [->|Hel]; [done|done].
  - destruct Hproto as [f Hf]. rewrite Hf.
    destruct (unassignable k) eqn:Hk; [apply reduce_thrown|].
    apply IH; [by eexists| |done].
    rewrite fmap_cons in Hel. apply elem_of_cons in Hel as [->|Hel]; [|done].
    cbn [fst] in Hkey. congruence.
Qed.

(** ** Identifiers of sibling invocations *)

Lemma next_id_inj (w1 w2 : World) :
  next_id w1 = next_id w2
  <-> String.substring 2 16 (random_source w1 (random_count w1))
      = String.substring 2 16 (random_source w2 (random_count w2)).
Proof.
  unfold next_id, drawn_id. split; [|by intros ->].
  intros Heq. injection Heq as Heq. exact Heq.
Qed.

(** C8, as stated, fails: two draws [0.5], printed [0.i] in base 36, give
    two root invocations the identifier [action-i]. *)
Lemma equal_draws_equal_ids :
  let s := exec (actionWrapper report_id)
             [Dispatched []; Dispatched []; Resumed 0; Resumed 1]
             (mkSys (fresh_world half) []) in
  tasks s = [Value (Str "action-i"); Value (Str "action-i")]
  ∧ invocation_id (host_context 0 None) (fresh_world half)
    = invocation_id (host_context 1 None) (set_random_count S (fresh_world half)).
Proof. split; reflexivity. Qed.

(** C8, amended. Two root invocations, started in states [w1] and [w2],
    run their actions under the identifiers [next_id w1] and [next_id w2],
    and these differ exactly when the two draws of [Math.random] differ
    somewhere in the sixteen characters after the first two of their
    base-36 rendering. *)
Theorem sibling_roots_distinct_when_draws_differ
    (a1 a2 : Action) (context1 context2 : Context)
    (args1 args2 : list jsval) (w1 w2 : World) :
  truthy (rootActionId context1) = false ->
  truthy (rootActionId context2) = false ->
  actionWrapper a1 context1 args1 w1
  = (let* ret := await (a1 (instrumented context1 (invocation_id context1 w1)) args1) in
     let* _ := actionCanceller.cleanAction (invocation_id context1 w1) in
     mret ret) (set_random_count S w1)
  ∧ actionWrapper a2 context2 args2 w2
    = (let* ret := await (a2 (instrumented context2 (invocation_id context2 w2)) args2) in
       let* _ := actionCanceller.cleanAction (invocation_id context2 w2) in
       mret ret) (set_random_count S w2)
  ∧ (invocation_id context1 w1 ≠ invocation_id context2 w2
     <-> String.substring 2 16 (random_source w1 (random_count w1))
         ≠ String.substring 2 16 (random_source w2 (random_count w2))).
Proof.
  intros Hroot1 Hroot2. unfold invocation_id. rewrite Hroot1, Hroot2.
  split; [by apply actionWrapper_root|]. split; [by apply actionWrapper_root|].
  by rewrite next_id_inj.
Qed.

Lemma sibling_roots_distinct_when_draws_differ_witness :
  invocation_id (host_context 0 None) (fresh_world counting)
  ≠ invocation_id (host_context 1 None) (set_random_count S (fresh_world counting)).
Proof.
  apply (sibling_roots_distinct_when_draws_differ report_id report_id
           (host_context 0 None) (host_context 1 None) [] []
           (fresh_world counting) (set_random_count S (fresh_world counting))
           eq_refl eq_refl).
  simpl. discriminate.
Defined.

(** ** The take-latest policy: failures of the underlying action *)

Lemma supersede_total (site : nat) (context : Context) (w : World) :
  supersede site context w = ((supersede site context w).1, Value tt).
Proof. destruct (supersede_run site context w) as (w1 & -> & _). reflexivity. Qed.

Lemma takeLatest_unfold (site : nat) (action : Action) (context : Context)
    (args : list jsval) (w : World) :
  takeLatest site action context args w
  = try_catch (await (action context args)) absorb (supersede site context w).1.
Proof. unfold takeLatest. by rewrite (bind_value _ _ _ _ _ (supersede_total _ _ _)). Qed.

Lemma absorb_run (e : exn) (w : World) :
  absorb e w
  = match name_of e with
    | Some name =>
        if bool_decide (name = Some "ActionCancelledError") then (w, Value Undefined)
        else (w, Raise e)
    | None => (w, Raise (TypeError "Cannot read property 'name' of undefined"))
    end.
Proof.
  unfold absorb, error_name. destruct (name_of e) as [name|]; [|reflexivity].
  unfold bind, mret. simpl.
  destruct (decide (name = Some "ActionCancelledError")) as [Heq|Hne].
  - by rewrite bool_decide_eq_false_2, bool_decide_eq_true_2 by auto.
  - by rewrite bool_decide_eq_true_2, bool_decide_eq_false_2 by auto.
Qed.

Lemma takeLatest_run_raise (site : nat) (action : Action) (context : Context)
    (args : list jsval) (w : World) (envs : list Env) (tick : Env)
    (wf : World) (e : exn) :
  run envs (action context args (supersede site context w).1) = Some (wf, Threw e) ->
  run (envs ++ [tick]) (takeLatest site action context args w)
  = run [] (absorb e (tick wf)).
Proof.
  intros Hrun. rewrite takeLatest_unfold. unfold try_catch, await.
  destruct (action context args _) as [w2 r].
  pose proof (run_awaitR _ tick _ _ _ _ Hrun) as Hawait.
  rewrite <- (app_nil_r (envs ++ [tick])).
  by rewrite (run_catchR_raise _ _ _ _ _ _ _ Hawait).
Qed.

Lemma takeLatest_run_value (site : nat) (action : Action) (context : Context)
    (args : list jsval) (w : World) (envs : list Env) (tick : Env)
    (wf : World) (v : jsval) :
  run envs (action context args (supersede site context w).1) = Some (wf, Returned v) ->
  run (envs ++ [tick]) (takeLatest site action context args w)
  = Some (tick wf, Returned v).
Proof.
  intros Hrun. rewrite takeLatest_unfold. unfold try_catch, await.
  destruct (action context args _) as [w2 r].
  pose proof (run_awaitR _ tick _ _ _ _ Hrun) as Hawait.
  by rewrite (run_catchR_value _ _ _ _ _ _ Hawait).
Qed.

(** C2, as stated, fails: an error of the server that is not the
    library's [ActionCancelledError] but happens to carry that name is
    swallowed, and the caller sees the invocation resolve with
    [undefined]. *)
Lemma foreign_error_with_the_name_is_swallowed :
  let e := Thrown (Some "ActionCancelledError") (Str "raised by the server") in
  e ≠ ActionCancelledError
  ∧ (exists wf,
       run [idle] (takeLatest 0 (user (fun _ _ => Throw e))
                     (host_context 0 (Some "action-i")) [] (fresh_world half))
       = Some (wf, Returned Undefined)).
Proof. split; [discriminate|]. eexists. reflexivity. Qed.

(** A rejection with [undefined] does not reach the caller either: reading
    its [name] throws, and the caller sees a [TypeError]. *)
Lemma nullish_rejection_is_replaced :
  exists wf,
    run [idle] (takeLatest 0 (user (fun _ _ => Throw ThrownNullish))
                  (host_context 0 (Some "action-i")) [] (fresh_world half))
    = Some (wf, Threw (TypeError "Cannot read property 'name' of undefined")).
Proof. eexists. reflexivity. Qed.

(** C2, amended. When the underlying action fails with a value whose
    [name] is ['ActionCancelledError'], the invocation resolves with
    [undefined], one turn later and in the state the action left; when it
    fails with a value that has any other [name], or none, the invocation
    fails with that same value. *)
Theorem takeLatest_absorbs_by_name
    (site : nat) (action : Action) (context : Context) (args : list jsval)
    (w : World) (envs : list Env) (tick : Env) (wf : World) (e : exn)
    (name : option string) :
  run envs (action context args (supersede site context w).1) = Some (wf, Threw e) ->
  name_of e = Some name ->
  run (envs ++ [tick]) (takeLatest site action context args w)
  = Some (tick wf,
          if bool_decide (name = Some "ActionCancelledError") then Returned Undefined
          else Threw e).
Proof.
  intros Hrun Hname. rewrite (takeLatest_run_raise _ _ _ _ _ _ tick _ _ Hrun).
  rewrite absorb_run, Hname. by case_bool_decide.
Qed.

Lemma takeLatest_absorbs_by_name_witness :
  (exists wf,
     run [idle] (takeLatest 0 (user (fun _ _ => Throw ActionCancelledError))
                   (host_context 0 (Some "action-i")) [] (fresh_world half))
     = Some (wf, Returned Undefined))
  ∧ (exists wf,
       run [idle] (takeLatest 0 (user (fun _ _ => Throw (Thrown (Some "Error") (Str "boom"))))
                     (host_context 0 (Some "action-i")) [] (fresh_world half))
       = Some (wf, Threw (Thrown (Some "Error") (Str "boom")))).
Proof.
  split; eexists.
  - exact (takeLatest_absorbs_by_name 0 (user (fun _ _ => Throw ActionCancelledError))
             (host_context 0 (Some "action-i")) [] (fresh_world half) [] idle _ _ _
             eq_refl eq_refl).
  - exact (takeLatest_absorbs_by_name 0
             (user (fun _ _ => Throw (Thrown (Some "Error") (Str "boom"))))
             (host_context 0 (Some "action-i")) [] (fresh_world half) [] idle _ _ _
             eq_refl eq_refl).
Defined.

(** ** A take-latest action inside the wrapper *)

Lemma run_awaitR_inv {A} (envs : list Env) (w : World) (r : Res A)
    (wf : World) (o : outcome A) :
  run envs (w, awaitR r) = Some (wf, o) ->
  exists envs' wf', run envs' (w, r) = Some (wf', o).
Proof.
  revert w r. induction envs as [|env envs IH]; intros w r Hrun.
  - destruct r; simpl in Hrun; discriminate.
  - destruct r as [a|e|k]; simpl in Hrun.
    + destruct envs; simpl in Hrun; [|discriminate]. simplify_eq.
      by exists [], w.
    + destruct envs; simpl in Hrun; [|discriminate]. simplify_eq.
      by exists [], w.
    + destruct (k (env w)) as [w' r'] eqn:Hk.
      destruct (IH _ _ Hrun) as (envs' & wf' & Hrun').
      exists (env :: envs'), wf'. simpl. by rewrite Hk.
Qed.

Lemma run_bindR_inv_raise {A B} (envs : list Env) (w : World) (r : Res A)
    (f : A -> M B) (wf : World) (e : exn) :
  (forall a w', exists b w'', f a w' = (w'', Value b)) ->
  run envs (bindR r f w) = Some (wf, Threw e) ->
  exists envs' wf', run envs' (w, r) = Some (wf', Threw e).
Proof.
  intros Hf. revert w r. induction envs as [|env envs IH]; intros w r Hrun.
  - destruct r as [a|e'|k]; simpl in Hrun.
    + destruct (Hf a w) as (b & w'' & Hfa). rewrite Hfa in Hrun. discriminate.
    + simplify_eq. by exists [], wf.
    + discriminate.
  - destruct r as [a|e'|k]; simpl in Hrun.
    + destruct (Hf a w) as (b & w'' & Hfa). rewrite Hfa in Hrun. discriminate.
    + discriminate.
    + destruct (k (env w)) as [w' r'] eqn:Hk.
      destruct (IH _ _ Hrun) as (envs' & wf' & Hrun').
      exists (env :: envs'), wf'. simpl. by rewrite Hk.
Qed.

Lemma run_catchR_absorb_inv (envs : list Env) (w : World) (r : Res jsval)
    (wf : World) (e : exn) :
  run envs (catchR r absorb w) = Some (wf, Threw e) ->
  name_of e ≠ Some (Some "ActionCancelledError").
Proof.
  revert w r. induction envs as [|env envs IH]; intros w r Hrun.
  - destruct r as [a|e'|k]; simpl in Hrun; try discriminate.
    rewrite absorb_run in Hrun. destruct (name_of e') as [name|] eqn:Hname.
    + case_bool_decide as Hn; simpl in Hrun; [discriminate|]. simplify_eq.
      rewrite Hname. congruence.
    + simpl in Hrun. simplify_eq. discriminate.
  - destruct r as [a|e'|k]; simpl in Hrun; try discriminate.
    + rewrite absorb_run in Hrun. destruct (name_of e') as [name|].
      * case_bool_decide; discriminate.
      * discriminate.
    + destruct (k (env w)) as [w' r'] eqn:Hk. by eapply IH.
Qed.

Lemma epilogue_returns (isRootAction : bool) (id : ident) (ret : jsval) (w : World) :
  exists b w'',
    (let* _ := (if isRootAction then actionCanceller.cleanAction id else mret tt) in
     mret ret) w = (w'', Value b).
Proof. destruct isRootAction; eexists _, _; reflexivity. Qed.

(** A wrapped take-latest action never fails with a value named
    ['ActionCancelledError']. *)
Lemma wrapped_takeLatest_never_cancelled (site : nat) (action : Action)
    (context : Context) (args : list jsval) (w : World) (envs : list Env)
    (wf : World) (e : exn) :
  run envs (actionWrapper (takeLatest site action) context args w) = Some (wf, Threw e) ->
  name_of e ≠ Some (Some "ActionCancelledError").
Proof.
  intros Hrun.
  assert (exists isRootAction id w0,
             actionWrapper (takeLatest site action) context args w
             = (let* ret := await (takeLatest site action (instrumented context id) args) in
                let* _ := (if isRootAction : bool then actionCanceller.cleanAction id
                           else mret tt) in
                mret ret) w0) as (isRootAction & id & w0 & Heq).
  { destruct (truthy (rootActionId context)) eqn:Hid.
    - exists false, (rootActionId context), w. unfold actionWrapper. by rewrite Hid.
    - exists true, (next_id w), (set_random_count S w). unfold actionWrapper. by rewrite Hid. }
  rewrite Heq in Hrun. clear Heq. unfold bind at 1, await in Hrun.
  rewrite takeLatest_unfold in Hrun. unfold try_catch, await in Hrun.
  destruct (action (instrumented context id) args _) as [w2 r].
  destruct (catchR (awaitR r) absorb w2) as [w3 r3] eqn:Hcatch.
  apply run_bindR_inv_raise in Hrun as (envs1 & wf1 & Hrun1);
    [|intros; apply epilogue_returns].
  apply run_awaitR_inv in Hrun1 as (envs2 & wf2 & Hrun2).
  rewrite <- Hcatch in Hrun2. by eapply run_catchR_absorb_inv.
Qed.

(** C10. A root invocation of a wrapped take-latest action whose underlying
    action fails with the [ActionCancelledError] of the interceptors, as
    it does when its own identifier was cancelled from outside, resolves
    with [undefined] two turns later, its identifier cleaned from the
    registry; and no invocation of such an action, root or nested, ever
    fails with a value named ['ActionCancelledError']. *)
Theorem external_cancellation_is_absorbed
    (site : nat) (action : Action) (context : Context) (args : list jsval)
    (w : World) :
  (forall envs tick1 tick2 wf,
     truthy (rootActionId context) = false ->
     run envs (action (instrumented context (next_id w)) args
                 (supersede site (instrumented context (next_id w))
                    (set_random_count S w)).1)
       = Some (wf, Threw ActionCancelledError) ->
     run (envs ++ [tick1; tick2]) (actionWrapper (takeLatest site action) context args w)
       = Some ((actionCanceller.cleanAction (next_id w) (tick2 (tick1 wf))).1,
               Returned Undefined))
  ∧ (forall envs wf e,
       run envs (actionWrapper (takeLatest site action) context args w) = Some (wf, Threw e) ->
       name_of e ≠ Some (Some "ActionCancelledError")).
Proof.
  split.
  - intros envs tick1 tick2 wf Hroot Hrun.
    pose proof (takeLatest_run_raise _ _ _ _ _ _ tick1 _ _ Hrun) as Hinner.
    rewrite absorb_run in Hinner. simpl in Hinner.
    pose proof (actionWrapper_root_run _ _ _ _ _ tick2 _ _ Hroot Hinner) as Houter.
    by rewrite <- app_assoc in Houter.
  - intros envs wf e. apply wrapped_takeLatest_never_cancelled.
Qed.

Lemma external_cancellation_is_absorbed_witness :
  exists wf,
    run [external (cancelAction (Some "action-i")); idle; idle]
      (actionWrapper (takeLatest 0 (user (fun _ => action1)))
         (host_context 0 None) (payload "hello" "world") (fresh_world half))
    = Some (wf, Returned Undefined)
    ∧ store wf = [] ∧ (Some "action-i" ∉ cancelledActions wf).
Proof.
  destruct (external_cancellation_is_absorbed 0 (user (fun _ => action1))
              (host_context 0 None) (payload "hello" "world") (fresh_world half))
    as [Habsorbed _].
  eexists. split.
  - exact (Habsorbed [external (cancelAction (Some "action-i"))] idle idle _
             eq_refl eq_refl).
  - split; [reflexivity|]. simpl. set_solver.
Defined.

(** ** Cleanup by the root invocation *)

(** C1 fails on the code at the second scenario of the test suite: the
    root invocation of [action1] is cancelled during its delay, its commit
    throws, the wrapper's [await] rethrows, line 65 is not reached, and the
    caller gets [ActionCancelledError] while the identifier stays in the
    registry. *)
Theorem cancelled_root_that_fails_stays_registered :
  exists wf,
    invocation_id (host_context 0 None) (fresh_world half) = Some "action-i"
    ∧ run [external (cancelAction (Some "action-i")); idle]
        (actionWrapper (user (fun _ => action1))
           (host_context 0 None) (payload "hello" "world") (fresh_world half))
      = Some (wf, Threw ActionCancelledError)
    ∧ Some "action-i" ∈ cancelledActions wf.
Proof.
  eexists. split; [reflexivity|]. split; [reflexivity|]. simpl. set_solver.
Qed.

(** ** Turns of an invocation *)

Lemma turn_refl (n : nat) (id : ident) (w : World) : turn n id w w.
Proof.
  split; try done. exists []. by rewrite app_nil_r.
Qed.

Lemma turn_trans (n : nat) (id : ident) (w1 w2 w3 : World) :
  turn n id w1 w2 -> turn n id w2 w3 -> turn n id w1 w3.
Proof.
  intros [Hr1 (l1 & Hs1 & Hf1 & Hc1) Hp1 Hrs1 Hrc1] [Hr2 (l2 & Hs2 & Hf2 & Hc2) Hp2 Hrs2 Hrc2].
  split; try congruence.
  - set_solver.
  - exists (l1 ++ l2)%list. split; [by rewrite Hs2, Hs1, app_assoc|].
    split; [by apply Forall_app|].
    intros Hid. rewrite Hc1, Hc2 by set_solver. done.
Qed.

Lemma turn_cancel (n : nat) (id x : ident) (w : World) :
  turn n id w (set_cancelledActions (fun s => {[x]} ∪ s) w).
Proof.
  split; simpl; try done; [set_solver|]. exists []. by rewrite app_nil_r.
Qed.

Lemma turn_forward (n : nat) (id : ident) (c : call) (w : World) :
  id ∉ cancelledActions w ->
  turn n id w (set_store (fun l => l ++ [(n, c)])%list w).
Proof.
  intros Hid. split; simpl; try done.
  exists [(n, c)]. split; [done|]. split; [by repeat constructor|done].
Qed.

Lemma attempt_wrappedCommit (n : nat) (id : ident) (args : list jsval) (w : World) :
  attempt (wrappedCommit id (host_commit n) args) w
  = if bool_decide (id ∈ cancelledActions w)
    then (w, Value (Threw ActionCancelledError))
    else (set_store (fun l => l ++ [(n, CommitCall args)])%list w,
          Value (Returned Undefined)).
Proof.
  unfold attempt. rewrite wrappedCommit_run. by case_bool_decide.
Qed.

Lemma attempt_wrappedDispatch (n : nat) (id : ident) (args : list jsval) (w : World) :
  attempt (wrappedDispatch id (host_dispatch n) args) w
  = if bool_decide (id ∈ cancelledActions w)
    then (w, Value (Threw ActionCancelledError))
    else (set_store (fun l => l ++ [(n, DispatchCall args)])%list w,
          Value (Returned Undefined)).
Proof.
  unfold attempt. rewrite wrappedDispatch_run. by case_bool_decide.
Qed.

(** A body run with the interceptors of [id] over the entry points of
    context [n] only takes turns of invocation [n]. *)
Lemma interp_quiet (n : nat) (inherited id : ident) (b : Body) (w : World) :
  turn n id w (interp (instrumented (host_context n inherited) id) b w).1
  ∧ quiet n id (interp (instrumented (host_context n inherited) id) b w).2.
Proof.
  revert w. induction b as [v|e|args k IH|args k IH|k IH|x k IH]; intros w.
  - split; [apply turn_refl|constructor].
  - split; [apply turn_refl|constructor].
  - cbn [interp instrumented commit host_context].
    pose proof (attempt_wrappedCommit n id args w) as Hcall.
    case_bool_decide as Hid.
    + rewrite (bind_value _ _ _ _ _ Hcall). apply IH.
    + rewrite (bind_value _ _ _ _ _ Hcall).
      destruct (IH (Returned Undefined)
                  (set_store (fun l => l ++ [(n, CommitCall args)])%list w)) as [Ht Hq].
      split; [|done]. eapply turn_trans; [by apply turn_forward|done].
  - cbn [interp instrumented dispatch host_context].
    pose proof (attempt_wrappedDispatch n id args w) as Hcall.
    case_bool_decide as Hid.
    + rewrite (bind_value _ _ _ _ _ Hcall). apply IH.
    + rewrite (bind_value _ _ _ _ _ Hcall).
      destruct (IH (Returned Undefined)
                  (set_store (fun l => l ++ [(n, DispatchCall args)])%list w)) as [Ht Hq].
      split; [|done]. eapply turn_trans; [by apply turn_forward|done].
  - cbn [interp]. unfold bind, suspend. simpl.
    split; [apply turn_refl|]. constructor; intros w'; apply IH.
  - cbn [interp]. rewrite (bind_value _ _ _ _ _ (cancelAction_run x w)).
    destruct (IH (set_cancelledActions (fun s => {[x]} ∪ s) w)) as [Ht Hq].
    split; [|done]. eapply turn_trans; [apply turn_cancel|done].
Qed.

Lemma quiet_awaitR {A} (n : nat) (id : ident) (r : Res A) :
  quiet n id r -> quiet n id (awaitR r).
Proof.
  induction 1 as [a|e|k Hturn Hquiet IH]; simpl.
  - constructor; intros w; simpl; [apply turn_refl|constructor].
  - constructor; intros w; simpl; [apply turn_refl|constructor].
  - constructor; intros w; specialize (Hturn w); specialize (IH w);
      destruct (k w) as [w' r']; simpl in *; done.
Qed.

Lemma quiet_catchR {A} (n : nat) (id : ident) (r : Res A) (h : exn -> M A) :
  (forall e w, turn n id w (h e w).1 ∧ quiet n id (h e w).2) ->
  quiet n id r ->
  forall w, turn n id w (catchR r h w).1 ∧ quiet n id (catchR r h w).2.
Proof.
  intros Hh. induction 1 as [a|e|k Hturn Hquiet IH]; intros w; simpl.
  - split; [apply turn_refl|constructor].
  - apply Hh.
  - split; [apply turn_refl|].
    constructor; intros w'; specialize (Hturn w'); specialize (IH w');
      destruct (k w') as [w'' r']; simpl in *.
    + eapply turn_trans; [done|]. apply IH.
    + apply IH.
Qed.

Lemma absorb_quiet (n : nat) (id : ident) (e : exn) (w : World) :
  turn n id w (absorb e w).1 ∧ quiet n id (absorb e w).2.
Proof.
  rewrite absorb_run. destruct (name_of e) as [name|]; [case_bool_decide|];
    simpl; (split; [apply turn_refl|constructor]).
Qed.

(** The last turn of a wrapped invocation. *)
Lemma closing_turn_last {A} (n : nat) (id : ident) (w w' : World) (r' : Res A) :
  settled r' ->
  (forall x, x ≠ id -> x ∈ cancelledActions w -> x ∈ cancelledActions w') ->
  store w' = store w ->
  previousCalls w' = previousCalls w ->
  random_source w' = random_source w ->
  random_count w' = random_count w ->
  closing_turn n id w w' r'.
Proof.
  intros Hset Hothers Hstore Hprev Hsrc Hcnt. split; try done; [by right|].
  exists []. by rewrite app_nil_r.
Qed.

(** The wrapper around a quiet call: after the call settled, one more turn
    in which a root invocation cleans its identifier. *)
Lemma quiet_guarded (n : nat) (id : ident) (isRootAction : bool) (r : Res jsval) :
  quiet n id r ->
  forall w,
    (bindR (awaitR r)
       (fun ret =>
          let* _ := (if isRootAction then actionCanceller.cleanAction id else mret tt) in
          mret ret) w).1 = w
    ∧ guarded n id
        (bindR (awaitR r)
           (fun ret =>
              let* _ := (if isRootAction then actionCanceller.cleanAction id else mret tt) in
              mret ret) w).2.
Proof.
  induction 1 as [a|e|k Hturn Hquiet IH]; intros w; (split; [reflexivity|]); simpl.
  - constructor; intros w'; simpl; [|destruct isRootAction; constructor].
    destruct isRootAction; simpl.
    + apply closing_turn_last; simpl; try done. set_solver.
    + apply closing_turn_last; simpl; done.
  - constructor; intros w'; simpl; [|constructor].
    apply closing_turn_last; simpl; done.
  - constructor; intros w'; specialize (Hturn w'); specialize (IH w');
      destruct (k w') as [w'' r']; simpl in *.
    + destruct (IH w'') as [-> _]. destruct Hturn as [Hreg Hstore Hprev Hsrc Hcnt].
      split; try done; [set_solver|]. intros Hid. left. set_solver.
    + apply IH.
Qed.

Lemma actionWrapper_user_guarded (n : nat) (inherited : ident)
    (body : ident -> list jsval -> Body) (args : list jsval) (w : World) :
  guarded n (invocation_id (host_context n inherited) w)
    (actionWrapper (user body) (host_context n inherited) args w).2.
Proof.
  unfold invocation_id.
  destruct (truthy (rootActionId (host_context n inherited))) eqn:Hid.
  - rewrite actionWrapper_nested by done. unfold bind at 1, await, user.
    set (id := rootActionId (host_context n inherited)).
    destruct (interp_quiet n inherited id
                (body (rootActionId (instrumented (host_context n inherited) id)) args) w)
      as [_ Hq].
    destruct (interp _ _ w) as [w1 r]. simpl in Hq.
    apply (quiet_guarded n id false r Hq w1).
  - rewrite actionWrapper_root by done. unfold bind at 1, await, user.
    set (id := next_id w).
    destruct (interp_quiet n inherited id
                (body (rootActionId (instrumented (host_context n inherited) id)) args)
                (set_random_count S w)) as [_ Hq].
    destruct (interp _ _ (set_random_count S w)) as [w1 r]. simpl in Hq.
    apply (quiet_guarded n id true r Hq w1).
Qed.

Lemma advance_settled {A} (envs : list Env) (w : World) (r : Res A) :
  settled r -> advance envs (w, r) = (w, r).
Proof. destruct envs, r; simpl; done. Qed.

Lemma advance_guarded {A} (n : nat) (id : ident) (envs : list Env) (w : World) (r : Res A) :
  guarded n id r -> guarded n id (advance envs (w, r)).2.
Proof.
  revert w r. induction envs as [|env envs IH]; intros w r Hg; [done|].
  destruct Hg as [a|e|k Hturn Hg]; simpl; try constructor.
  specialize (Hg (env w)). destruct (k (env w)) as [w' r']. by apply IH.
Qed.

Lemma calls_of_app (n : nat) (l1 l2 : list (nat * call)) :
  calls_of n (l1 ++ l2) = (calls_of n l1 ++ calls_of n l2)%list.
Proof. unfold calls_of. by rewrite filter_app, fmap_app. Qed.

Lemma calls_of_other (n m : nat) (l : list (nat * call)) :
  Forall (fun e => e.1 = m) l -> n ≠ m -> calls_of n l = [].
Proof.
  intros Hall Hne. unfold calls_of. induction Hall as [|e l He _ IH]; [done|].
  rewrite filter_cons_False; [done|]. simpl. congruence.
Qed.

(** Once its identifier is in the registry, and as long as nobody else
    removes it, a wrapped invocation reaches the store no more. *)
Lemma guarded_frozen {A} (n : nat) (id : ident) (post : list Env) (w : World) (r : Res A) :
  guarded n id r ->
  Forall (bystander n id) post ->
  id ∈ cancelledActions w ->
  calls_of n (store (advance post (w, r)).1) = calls_of n (store w).
Proof.
  revert w r. induction post as [|env post IH]; intros w r Hg Hpost Hid; [done|].
  apply Forall_cons in Hpost as [Henv Hpost].
  destruct Hg as [a|e|k Hturn Hg]; simpl; try done.
  destruct (Henv w) as [Hkeep Hsilent].
  specialize (Hturn (env w)). specialize (Hg (env w)).
  destruct (k (env w)) as [w' r']; simpl in *.
  destruct Hturn as [_ Hown (l & Hstore & _ & Hnone) _ _ _].
  rewrite Hnone, app_nil_r in Hstore by auto.
  destruct (Hown (Hkeep Hid)) as [Hin|Hset].
  - rewrite (IH w' r') by done. by rewrite Hstore.
  - rewrite advance_settled by done. simpl. by rewrite Hstore.
Qed.

(** C3, as stated, fails.  A parent dispatches a child without awaiting it;
    [cancelAction] is called with their identifier while both sleep; the
    parent returns and, being the root, cleans the identifier (line 65);
    the commit the child then attempts is forwarded to the store. *)
Lemma child_commits_after_parent_cleaned :
  let action := actionWrapper (user (fun _ => parent_or_child)) in
  let cancelled := exec action
                     [Dispatched []; Nested (Some "action-i") [Str "child"];
                      Cancelled (Some "action-i")]
                     (mkSys (fresh_world half) []) in
  let s := exec action [Resumed 0; Resumed 0; Resumed 1; Resumed 1] cancelled in
  invocation_id (host_context 0 None) (fresh_world half) = Some "action-i"
  ∧ store (world cancelled) = [(0, DispatchCall [Str "child"])]
  ∧ store (world s) = [(0, DispatchCall [Str "child"]); (1, CommitCall [Str "late"])]
  ∧ tasks s = [Value Undefined; Value Undefined].
Proof. split; [reflexivity|]. split; [reflexivity|]. split; reflexivity. Qed.

(** C3, amended. Take an invocation of a wrapped action through context
    [n], root or nested, running under identifier [id], at any point [s1]
    of its life.  After [cancelAction(id)], and for as long as [id] is not
    removed from the registry by someone else (only the last turn of the
    root invocation of [id] removes it, line 65), the calls that reached
    the store through context [n] stay exactly those that had reached it:
    none is added, none is undone.  In any state in which [id] is in the
    registry a [commit] or [dispatch] of the body is a throw of
    [ActionCancelledError] to it. *)
Theorem cancelled_invocation_reaches_the_store_no_more
    (n : nat) (inherited : ident) (body : ident -> list jsval -> Body)
    (args : list jsval) (w0 : World) (pre post : list Env) :
  let context := host_context n inherited in
  let id := invocation_id context w0 in
  let s1 := advance pre (actionWrapper (user body) context args w0) in
  Forall (bystander n id) post ->
  calls_of n (store (advance (external (cancelAction id) :: post) s1).1)
  = calls_of n (store s1.1)
  ∧ (forall w cargs k,
       id ∈ cancelledActions w ->
       interp (instrumented context id) (Commit cargs k) w
       = interp (instrumented context id) (k (Threw ActionCancelledError)) w
       ∧ interp (instrumented context id) (Dispatch cargs k) w
         = interp (instrumented context id) (k (Threw ActionCancelledError)) w).
Proof.
  intros context id s1 Hpost. split.
  - pose proof (actionWrapper_user_guarded n inherited body args w0) as Hg.
    fold context id in Hg.
    destruct (actionWrapper (user body) context args w0) as [w r] eqn:Hs.
    pose proof (advance_guarded n id pre w r Hg) as Hg1. fold s1 in Hg1.
    destruct s1 as [w1 r1]. cbn [fst snd] in *.
    destruct r1 as [a|e|k]; try done.
    pose proof (guarded_frozen n id (idle :: post)
                  (external (cancelAction id) w1) (Yield k) Hg1) as Hfrozen.
    cbn [advance] in *. unfold idle at 2 in Hfrozen. rewrite Hfrozen.
    + done.
    + constructor; [|done]. intros w'. done.
    + simpl. set_solver.
  - intros w cargs k Hid. split.
    + cbn [interp instrumented commit host_context].
      pose proof (attempt_wrappedCommit n id cargs w) as Hcall.
      rewrite bool_decide_eq_true_2 in Hcall by done.
      by rewrite (bind_value _ _ _ _ _ Hcall).
    + cbn [interp instrumented dispatch host_context].
      pose proof (attempt_wrappedDispatch n id cargs w) as Hcall.
      rewrite bool_decide_eq_true_2 in Hcall by done.
      by rewrite (bind_value _ _ _ _ _ Hcall).
Qed.

Lemma cancelled_invocation_reaches_the_store_no_more_witness :
  calls_of 0 (store (advance [external (cancelAction (Some "action-i")); idle; idle]
                       (actionWrapper (user (fun _ _ => loading_then_set))
                          (host_context 0 None) [] (fresh_world half))).1)
  = [CommitCall [Str "loading"]].
Proof.
  destruct (cancelled_invocation_reaches_the_store_no_more 0 None
              (fun _ _ => loading_then_set) [] (fresh_world half) [] [idle; idle])
    as [Hfrozen _].
  - repeat constructor; done.
  - exact Hfrozen.
Defined.

(** ** Supersession *)

Lemma quiet_catchR_awaitR (n : nat) (id : ident) (r : Res jsval) (w : World) :
  quiet n id r ->
  (catchR (awaitR r) absorb w).1 = w ∧ quiet n id (catchR (awaitR r) absorb w).2.
Proof.
  intros Hq. split.
  - destruct r; reflexivity.
  - apply quiet_catchR; [apply absorb_quiet|by apply quiet_awaitR].
Qed.

(** A root invocation of a wrapped take-latest action, up to its first
    suspension: one draw, [supersede], and a first turn of the body. *)
Lemma dispatch_shape (site n : nat) (body : ident -> list jsval -> Body)
    (args : list jsval) (w : World) :
  exists w2 r,
    actionWrapper (takeLatest site (user body)) (host_context n None) args w = (w2, r)
    ∧ turn n (next_id w)
        (supersede site (instrumented (host_context n None) (next_id w))
           (set_random_count S w)).1 w2
    ∧ guarded n (next_id w) r.
Proof.
  rewrite actionWrapper_root by reflexivity. unfold bind at 1, await.
  rewrite takeLatest_unfold. unfold try_catch, await, user.
  set (id := next_id w). set (context := instrumented (host_context n None) id).
  set (w1 := (supersede site context (set_random_count S w)).1).
  destruct (interp_quiet n None id (body (rootActionId context) args) w1) as [Ht Hq].
  fold context in Ht, Hq.
  destruct (interp context (body (rootActionId context) args) w1) as [w2 r0].
  cbn [fst snd] in Ht, Hq.
  destruct (quiet_catchR_awaitR n id r0 w2 Hq) as [Hw Hq'].
  destruct (catchR (awaitR r0) absorb w2) as [w3 r1]. cbn [fst snd] in Hw, Hq'. subst w3.
  destruct (quiet_guarded n id true r1 Hq' w2) as [Hw Hg].
  eexists _, _. split; [apply surjective_pairing|]. split; [|exact Hg].
  by rewrite Hw.
Qed.

Lemma distinct_ids_lookup (source : nat -> string) (c0 N i j : nat) :
  distinct_ids source c0 N -> i < N -> j < N ->
  drawn_id source (c0 + i) = drawn_id source (c0 + j) -> i = j.
Proof.
  intros Hnd Hi Hj Heq.
  eapply (NoDup_lookup _ i j _ Hnd).
  - rewrite list_lookup_fmap, lookup_seq_lt by done. reflexivity.
  - rewrite list_lookup_fmap, lookup_seq_lt by done. simpl. by rewrite Heq.
Qed.

Section Supersession.

Variables (site : nat) (body : ident -> list jsval -> Body).
Variables (source : nat -> string) (c0 N : nat).
Hypothesis Hdistinct : distinct_ids source c0 N.

Notation action := (latest site body).

Lemma step_dispatched (args : list jsval) (s : Sys) :
  invariant site source c0 s ->
  invariant site source c0 (step action (Dispatched args) s)
  ∧ length (tasks (step action (Dispatched args) s)) = S (length (tasks s))
  ∧ (forall i, i < length (tasks s) ->
       calls_of i (store (world (step action (Dispatched args) s)))
       = calls_of i (store (world s))).
Proof using Type.
  clear Hdistinct.
  intros [Hsrc Hcnt Hpend Hguard Hsup]. unfold step, latest.
  set (m := length (tasks s)) in *. set (w := world s) in *.
  destruct (dispatch_shape site m body args w) as (w2 & r & -> & Hturn & Hg).
  set (context := instrumented (host_context m None) (next_id w)) in *.
  destruct (supersede_run site context (set_random_count S w))
    as (w1 & Hrun & Hone & Hreg & _ & Hsrc1 & Hcnt1 & Hstore1).
  change (previousCalls_at site (set_random_count S w))
    with (previousCalls_at site w) in Hreg.
  change (cancelledActions (set_random_count S w)) with (cancelledActions w) in Hreg.
  change (store (set_random_count S w)) with (store w) in Hstore1.
  rewrite Hrun in Hturn. cbn [fst] in Hturn.
  destruct Hturn as [Hreg2 (l & Hstore2 & Htag & _) Hprev2 Hsrc2 Hcnt2].
  assert (Hid : next_id w = drawn_id source (c0 + m)).
  { unfold next_id. by rewrite Hsrc, Hcnt. }
  cbn [world tasks].
  split; [|split; [rewrite length_app; simpl; lia|]].
  - split; cbn [world tasks].
    + by rewrite Hsrc2, Hsrc1.
    + rewrite length_app, Hcnt2, Hcnt1. simpl. fold w m. rewrite Hcnt. lia.
    + rewrite length_app. cbn [length]. fold m. replace (m + 1) with (S m) by lia.
      unfold previousCalls_at in *. rewrite Hprev2, Hone. simpl. by rewrite Hid.
    + intros i r' Hi. apply lookup_app_Some in Hi as [Hi|[Hlen Hi]].
      * by apply Hguard.
      * fold m in Hlen, Hi. destruct (i - m) as [|d] eqn:Hd; [|done].
        simpl in Hi. simplify_eq. replace i with m by lia. by rewrite <- Hid.
    + intros i r' Hi Hlt. rewrite length_app in Hlt. cbn [length] in Hlt. fold m in Hlt.
      apply lookup_app_Some in Hi as [Hi|[Hlen Hi]]; [|fold m in Hlen; lia].
      destruct (decide (S i = m)) as [Hlast|Hnot].
      * right. apply Hreg2. rewrite Hreg. apply elem_of_union_l.
        rewrite Hpend, <- Hlast. set_solver.
      * destruct (Hsup i r' Hi) as [Hset|Hin]; [lia|by left|].
        right. apply Hreg2. rewrite Hreg. set_solver.
  - intros i Hi. rewrite Hstore2, Hstore1.
    rewrite calls_of_app, (calls_of_other i m l) by (done || lia).
    by rewrite app_nil_r.
Qed.

Lemma step_resumed (j : nat) (s : Sys) :
  length (tasks s) <= N ->
  invariant site source c0 s ->
  invariant site source c0 (step action (Resumed j) s)
  ∧ length (tasks (step action (Resumed j) s)) = length (tasks s)
  ∧ (forall i, S i < length (tasks s) ->
       calls_of i (store (world (step action (Resumed j) s)))
       = calls_of i (store (world s))).
Proof using Hdistinct.
  intros HN Hinv. unfold step.
  destruct (tasks s !! j) as [[a|e|k]|] eqn:Hj; try done.
  pose proof Hinv as [Hsrc Hcnt Hpend Hguard Hsup].
  pose proof (Hguard j _ Hj) as Hg. inversion Hg as [| |k' Hturn Hg' Hk]. subst k'.
  specialize (Hturn (world s)). specialize (Hg' (world s)).
  destruct (k (world s)) as [w' r']. cbn [fst snd] in Hturn, Hg'.
  destruct Hturn as [Hothers Hown (l & Hstore & Htag & Hnone) Hprev Hsrc' Hcnt'].
  pose proof (lookup_lt_Some _ _ _ Hj) as Hjlt.
  cbn [world tasks]. rewrite length_insert.
  split; [|split; [done|]].
  - split; cbn [world tasks]; rewrite ?length_insert.
    + congruence.
    + congruence.
    + unfold previousCalls_at in *. by rewrite Hprev.
    + intros i r Hi. destruct (decide (i = j)) as [->|Hne].
      * rewrite list_lookup_insert_eq in Hi by done. by simplify_eq.
      * rewrite list_lookup_insert_ne in Hi by done. by apply Hguard.
    + intros i r Hi Hlt. destruct (decide (i = j)) as [->|Hne].
      * rewrite list_lookup_insert_eq in Hi by done. simplify_eq.
        destruct (Hsup j _ Hj Hlt) as [[]|Hin].
        destruct (Hown Hin); [by right|by left].
      * rewrite list_lookup_insert_ne in Hi by done.
        destruct (Hsup i r Hi Hlt) as [Hset|Hin]; [by left|].
        right. apply Hothers; [|done].
        intros Heq. apply Hne.
        apply (distinct_ids_lookup source c0 N); [done|lia|lia|done].
  - intros i Hlt. rewrite Hstore, calls_of_app.
    destruct (decide (i = j)) as [->|Hne].
    + destruct (Hsup j _ Hj Hlt) as [[]|Hin]. rewrite Hnone by done.
      by rewrite app_nil_r.
    + rewrite (calls_of_other i j l) by done. by rewrite app_nil_r.
Qed.

Lemma step_cancelled (x : ident) (s : Sys) :
  invariant site source c0 s ->
  invariant site source c0 (step action (Cancelled x) s)
  ∧ length (tasks (step action (Cancelled x) s)) = length (tasks s)
  ∧ store (world (step action (Cancelled x) s)) = store (world s).
Proof using Type.
  clear Hdistinct.
  intros [Hsrc Hcnt Hpend Hguard Hsup]. unfold step. cbn [world tasks].
  split; [|done]. split; cbn [world tasks]; try done.
  intros i r Hi Hlt. destruct (Hsup i r Hi Hlt) as [Hset|Hin]; [by left|].
  right. unfold external. simpl. set_solver.
Qed.

Lemma step_length (ev : event) (s : Sys) :
  length (tasks (step action ev s)) = length (tasks s) + dispatches [ev].
Proof using Type.
  clear Hdistinct. destruct ev as [args|inherited args|j|x]; unfold step; simpl.
  - destruct (action _ args (world s)) as [w' r]. simpl. by rewrite length_app.
  - destruct (action _ args (world s)) as [w' r]. simpl. by rewrite length_app.
  - destruct (tasks s !! j) as [[a|e|k]|]; try lia.
    destruct (k (world s)) as [w' r]. simpl. rewrite length_insert. lia.
  - lia.
Qed.

Lemma exec_invariant (evs : list event) (s : Sys) :
  Forall root_event evs ->
  length (tasks s) + dispatches evs <= N ->
  invariant site source c0 s ->
  invariant site source c0 (exec action evs s)
  ∧ length (tasks (exec action evs s)) = length (tasks s) + dispatches evs
  ∧ (forall i, S i < length (tasks s) ->
       calls_of i (store (world (exec action evs s))) = calls_of i (store (world s))).
Proof using Hdistinct.
  intros Hroots. revert s.
  induction Hroots as [|ev evs Hroot Hroots IH]; intros s HN Hinv.
  { split; [done|]. split; [simpl; lia|done]. }
  unfold exec. cbn [foldl]. fold (exec action evs (step action ev s)).
  pose proof (step_length ev s) as Hlen.
  assert (dispatches (ev :: evs) = dispatches [ev] + dispatches evs) as Hsplit.
  { destruct ev; reflexivity. }
  rewrite Hsplit in *.
  assert (invariant site source c0 (step action ev s)
          ∧ (forall i, S i < length (tasks s) ->
               calls_of i (store (world (step action ev s)))
               = calls_of i (store (world s)))) as (Hinv' & Hstep).
  { destruct ev as [args|inherited args|j|x].
    - destruct (step_dispatched args s Hinv) as (? & _ & Hfrozen).
      split; [done|]. intros i Hi. apply Hfrozen. lia.
    - destruct Hroot.
    - destruct (step_resumed j s) as (? & _ & Hfrozen); [lia|done|]. done.
    - destruct (step_cancelled x s Hinv) as (? & _ & Hstore).
      split; [done|]. intros i _. by rewrite Hstore. }
  destruct (IH (step action ev s)) as (Hinv'' & Hlen'' & Hrest); [lia|done|].
  split; [done|]. split; [lia|].
  intros i Hi. rewrite Hrest by lia. by apply Hstep.
Qed.

End Supersession.

(** ** Supersession in a store with nested dispatches *)














Section Trees.

Variables (site : nat) (body : ident -> list jsval -> Body).
Variables (source : nat -> string) (c0 N : nat).
Hypothesis Hdistinct : distinct_ids source c0 N.

Notation action := (latest site body).







End Trees.






(** ** The scenarios of the test suite *)

(** Undisturbed, [action1] commits and dispatches in order. *)
Example scenario_dispatch :
  exists wf,
    run [idle; idle] (actionWrapper (user (fun _ => action1)) (host_context 0 None)
                        (payload "hello" "world") (fresh_world half))
    = Some (wf, Returned Undefined)
    ∧ store wf = [(0, CommitCall [Str "setProp1"; Obj [("prop1", Str "helloworld")]]);
                  (0, DispatchCall [Str "action2"; Obj [("prop2", Str "world")]])].
Proof. eexists. split; reflexivity. Qed.

(** Two dispatches of the take-latest [action1]; the second one's delay
    ends first.  Only the calls of the second reach the store, and both
    promises resolve. *)
Example scenario_takeLatest :
  let s := exec (latest 0 (fun _ => action1))
             [Dispatched (payload "hello" "world"); Dispatched (payload "goodbye" "lennin");
              Resumed 1; Resumed 1; Resumed 1; Resumed 0; Resumed 0; Resumed 0]
             (mkSys (fresh_world counting) []) in
  store (world s)
  = [(1, CommitCall [Str "setProp1"; Obj [("prop1", Str "goodbyelennin")]]);
     (1, DispatchCall [Str "action2"; Obj [("prop2", Str "lennin")]])]
  ∧ tasks s = [Value Undefined; Value Undefined].
Proof. split; reflexivity. Qed.

(** * Further properties of the code *)

(** ** [makeCancellable]: keys *)

(** X1. Let [actions] be the properties of the argument in the order of
    [Object.keys], their keys pairwise different.  Without a key
    ['__proto__'], [makeCancellable] returns an object with the prototype
    of [{}] and the same keys, as many.  Whenever it returns, the result
    binds every key of the argument other than ['__proto__'] to the
    wrapper of the action under it and has no other own key, ['__proto__']
    in particular; the wrapper of the action under ['__proto__'], if there
    is one, is the prototype of the result, which has one key less than
    the argument.  It returns when no key is [length], [name],
    [constructor], [arguments] or [caller], and it throws when one of
    these follows ['__proto__']. *)
Theorem makeCancellable_keys (actions : list (string * Action)) :
  NoDup actions.*1 ->
  ("__proto__" ∉ actions.*1 ->
     exists obj,
       makeCancellable actions = Some obj
       ∧ prototype obj = None
       ∧ dom (own obj) = list_to_set actions.*1
       ∧ size (own obj) = length actions)
  ∧ (forall obj,
       makeCancellable actions = Some obj ->
       own obj !! "__proto__" = None
       ∧ dom (own obj) = list_to_set actions.*1 ∖ {["__proto__"]}
       ∧ (forall key action, (key, action) ∈ actions -> key ≠ "__proto__" ->
            own obj !! key = Some (actionWrapper action))
       ∧ (forall key, key ∉ actions.*1 -> own obj !! key = None)
       ∧ (forall f, ("__proto__", f) ∈ actions ->
            prototype obj = Some (actionWrapper f)
            ∧ S (size (own obj)) = length actions))
  ∧ ((forall key, key ∈ actions.*1 -> unassignable key = false) ->
     is_Some (makeCancellable actions))
  ∧ (forall pre f post key,
       actions = (pre ++ ("__proto__", f) :: post)%list ->
       key ∈ post.*1 -> unassignable key = true ->
       makeCancellable actions = None).
Proof.
  intros Hnodup.
  assert (Hresult : forall obj,
            makeCancellable actions = Some obj ->
            own obj !! "__proto__" = None
            ∧ dom (own obj) = list_to_set actions.*1 ∖ {["__proto__"]}
            ∧ (forall key action, (key, action) ∈ actions -> key ≠ "__proto__" ->
                 own obj !! key = Some (actionWrapper action))
            ∧ (forall key, key ∉ actions.*1 -> own obj !! key = None)).
  { intros obj Hobj.
    destruct (reduce_result actions _ obj Hnodup Hobj) as (Hin & Hout & _ & _).
    assert (Hnone : own obj !! "__proto__" = None) by (rewrite Hout; [done|by right]).
    assert (Hlack : forall key, key ∉ actions.*1 -> own obj !! key = None).
    { intros key Hkey. rewrite Hout; [done|by left]. }
    split; [done|]. split; [|done].
    apply set_eq. intros key.
    rewrite elem_of_dom, elem_of_difference, elem_of_list_to_set, elem_of_singleton.
    split.
    - intros Hsome. split.
      + destruct (decide (key ∈ actions.*1)) as [|Hnot]; [done|].
        rewrite (Hlack key Hnot) in Hsome. by destruct Hsome.
      + intros ->. rewrite Hnone in Hsome. by destruct Hsome.
    - intros [Hel Hne]. apply list_elem_of_fmap in Hel as ([k a] & Heq & Hel).
      cbn [fst] in Heq. subst key. rewrite (Hin k a Hel Hne). by eexists. }
  split; [|split; [|split]].
  - intros Hnone.
    destruct (reduce_returns actions (mkObject None ∅)) as [obj Hobj]; [by left|].
    exists obj. split; [done|].
    destruct (reduce_result actions _ obj Hnodup Hobj) as (_ & _ & _ & Hsame).
    split; [by rewrite Hsame|].
    destruct (Hresult obj Hobj) as (_ & Hdom & _).
    assert (Hdom' : dom (own obj) = list_to_set actions.*1) by set_solver.
    split; [done|].
    by rewrite <- size_dom, Hdom', size_list_to_set, length_fmap.
  - intros obj Hobj. destruct (Hresult obj Hobj) as (Hnone & Hdom & Hin & Hlack).
    split; [done|]. split; [done|]. split; [done|]. split; [done|].
    intros f Hf. destruct (reduce_result actions _ obj Hnodup Hobj) as (_ & _ & Hproto & _).
    split; [by apply Hproto|].
    assert (Hel : "__proto__" ∈ (list_to_set actions.*1 : gset string)).
    { apply elem_of_list_to_set, list_elem_of_fmap. by exists ("__proto__", f). }
    rewrite <- size_dom, Hdom, size_difference by set_solver.
    rewrite size_singleton, size_list_to_set, length_fmap by done.
    destruct actions; [by apply elem_of_nil in Hf|simpl; lia].
  - intros Hkeys. apply reduce_returns. by right.
  - intros pre f post key -> Hkey Hun. unfold makeCancellable. rewrite foldl_app.
    destruct (foldl _ _ pre) as [acc|]; [|apply reduce_thrown].
    cbn [foldl]. cbn [mbind option_bind fst snd]. unfold assign at 2.
    rewrite decide_True by done. by apply (reduce_throws post _ key).
Qed.

Lemma makeCancellable_keys_witness :
  (exists obj,
     makeCancellable [("action1", user (fun _ _ => Return Undefined));
                      ("action2", user (fun _ _ => Return Undefined))] = Some obj
     ∧ prototype obj = None
     ∧ dom (own obj) = list_to_set ["action1"; "action2"]
     ∧ size (own obj) = 2)
  ∧ makeCancellable [("__proto__", user (fun _ _ => Return Undefined));
                     ("length", user (fun _ _ => Return Undefined))] = None.
Proof.
  split.
  - destruct (makeCancellable_keys [("action1", user (fun _ _ => Return Undefined));
                                    ("action2", user (fun _ _ => Return Undefined))])
      as (Hplain & _).
    { compute_done. }
    apply Hplain. compute_done.
  - destruct (makeCancellable_keys [("__proto__", user (fun _ _ => Return Undefined));
                                    ("length", user (fun _ _ => Return Undefined))])
      as (_ & _ & _ & Hthrows).
    { compute_done. }
    apply (Hthrows [] (user (fun _ _ => Return Undefined))
             [("length", user (fun _ _ => Return Undefined))] "length"); [done| |done].
    compute_done.
Defined.

(** ** [uniqueId]: the shape of an identifier *)






(** ** The registry: cancelling and cleaning *)

(** X3. After [cancelAction(id)] the registry answers [true] for [id],
    after [cleanAction(id)] it answers [false]; cleaning an identifier that
    was cancelled while absent restores the state; cleaning one identifier
    does not change the answer for another. *)
Theorem registry_cancel_then_clean (id : ident) (w : World) :
  (actionCanceller.isActionCancelled id (cancelAction id w).1).2 = Value true
  ∧ (actionCanceller.isActionCancelled id (actionCanceller.cleanAction id w).1).2
    = Value false
  ∧ (id ∉ cancelledActions w ->
     (actionCanceller.cleanAction id (cancelAction id w).1).1 = w)
  ∧ (forall id' : ident, id' ≠ id ->
       (actionCanceller.isActionCancelled id' (actionCanceller.cleanAction id w).1).2
       = (actionCanceller.isActionCancelled id' w).2).
Proof.
  split; [|split; [|split]].
  - simpl. f_equal. apply bool_decide_eq_true_2. set_solver.
  - simpl. f_equal. apply bool_decide_eq_false_2. set_solver.
  - intros Hid. apply World_eq; simpl; try done. set_solver.
  - intros id' Hne. simpl. f_equal. apply bool_decide_ext. set_solver.
Qed.

Lemma registry_cancel_then_clean_witness :
  (actionCanceller.cleanAction (Some "a") (cancelAction (Some "a") (fresh_world half)).1).1
  = fresh_world half.
Proof.
  destruct (registry_cancel_then_clean (Some "a") (fresh_world half)) as (_ & _ & Hback & _).
  apply Hback. simpl. set_solver.
Defined.

(** ** What the caller of a wrapped action gets *)

Lemma actionWrapper_entry (action : Action) (context : Context) (args : list jsval)
    (w : World) :
  actionWrapper action context args w
  = (let* ret := await (action (instrumented context (invocation_id context w)) args) in
     let* _ := (if negb (truthy (rootActionId context))
                then actionCanceller.cleanAction (invocation_id context w)
                else mret tt) in
     mret ret) (entry_state context w).
Proof.
  unfold invocation_id, entry_state, actionWrapper.
  destruct (truthy (rootActionId context)); reflexivity.
Qed.

(** X4. When the action of a root invocation returns [v], the caller gets
    [v] one turn later, and in the state it finds the identifier of the
    invocation is not in the registry, also when it was cancelled during
    the run; the membership of every other identifier, the store, the
    arrays and the random source are as the action and the environment
    left them. *)
Theorem root_success_returns_value_and_cleans
    (action : Action) (context : Context) (args : list jsval) (w : World)
    (envs : list Env) (tick : Env) (wf : World) (v : jsval) :
  truthy (rootActionId context) = false ->
  run envs (action (instrumented context (next_id w)) args (set_random_count S w))
    = Some (wf, Returned v) ->
  exists wfin,
    run (envs ++ [tick]) (actionWrapper action context args w) = Some (wfin, Returned v)
    ∧ (next_id w ∉ cancelledActions wfin)
    ∧ (forall x, x ≠ next_id w ->
         (x ∈ cancelledActions wfin <-> x ∈ cancelledActions (tick wf)))
    ∧ store wfin = store (tick wf)
    ∧ previousCalls wfin = previousCalls (tick wf)
    ∧ random_count wfin = random_count (tick wf).
Proof.
  intros Hroot Hrun.
  rewrite (actionWrapper_root_run _ _ _ _ _ tick _ _ Hroot Hrun).
  eexists. split; [reflexivity|]. simpl. repeat split; try done; set_solver.
Qed.

Lemma root_success_returns_value_and_cleans_witness :
  exists wfin,
    run [external (cancelAction (Some "action-i")); idle]
      (actionWrapper (user (fun _ _ => Await (Return (Str "done"))))
         (host_context 0 None) [] (fresh_world half))
    = Some (wfin, Returned (Str "done"))
    ∧ (Some "action-i" ∉ cancelledActions wfin).
Proof.
  destruct (root_success_returns_value_and_cleans
              (user (fun _ _ => Await (Return (Str "done"))))
              (host_context 0 None) [] (fresh_world half)
              [external (cancelAction (Some "action-i"))] idle _ (Str "done")
              eq_refl eq_refl) as (wfin & Hrun & Hclean & _).
  exists wfin. split; [exact Hrun|exact Hclean].
Defined.

(** X5. When the action of an invocation, root or nested, fails with [e],
    the caller gets the same [e] one turn later, in the state the action
    and the environment left: nothing is caught, nothing is replaced, and
    nothing is cleaned. *)
Theorem wrapper_rethrows_unchanged
    (action : Action) (context : Context) (args : list jsval) (w : World)
    (envs : list Env) (tick : Env) (wf : World) (e : exn) :
  run envs (action (instrumented context (invocation_id context w)) args
              (entry_state context w))
    = Some (wf, Threw e) ->
  run (envs ++ [tick]) (actionWrapper action context args w) = Some (tick wf, Threw e).
Proof.
  unfold invocation_id, entry_state.
  destruct (truthy (rootActionId context)) eqn:Hid; intros Hrun.
  - by apply actionWrapper_nested_run.
  - by rewrite (actionWrapper_root_run _ _ _ _ _ tick _ _ Hid Hrun).
Qed.

Lemma wrapper_rethrows_unchanged_witness :
  run [idle] (actionWrapper (user (fun _ _ => Throw (Thrown (Some "Error") (Str "boom"))))
                (host_context 0 None) [] (fresh_world half))
  = Some (set_random_count S (fresh_world half), Threw (Thrown (Some "Error") (Str "boom"))).
Proof.
  exact (wrapper_rethrows_unchanged
           (user (fun _ _ => Throw (Thrown (Some "Error") (Str "boom"))))
           (host_context 0 None) [] (fresh_world half) [] idle _ _ eq_refl).
Defined.

(** ** Interceptors over interceptors *)

(** X6. An entry point wrapped for [a] over one wrapped for [b], as a
    nested invocation builds when it is handed the context of its parent,
    throws [ActionCancelledError] when [a] or [b] is in the registry and
    is the original otherwise; wrapped twice for the same identifier it is
    the entry point wrapped once. *)
Theorem interceptors_compose (a b : ident) (orig : HostFn) (args : list jsval) (w : World) :
  wrappedCommit a (wrappedCommit b orig) args w
  = (if bool_decide (a ∈ cancelledActions w ∨ b ∈ cancelledActions w)
     then (w, Raise ActionCancelledError) else orig args w)
  ∧ wrappedDispatch a (wrappedDispatch b orig) args w
    = (if bool_decide (a ∈ cancelledActions w ∨ b ∈ cancelledActions w)
       then (w, Raise ActionCancelledError) else orig args w)
  ∧ wrappedCommit a (wrappedCommit a orig) args w = wrappedCommit a orig args w
  ∧ wrappedDispatch a (wrappedDispatch a orig) args w = wrappedDispatch a orig args w.
Proof.
  rewrite ?wrappedCommit_run, ?wrappedDispatch_run.
  repeat split; repeat case_bool_decide; try done; naive_solver.
Qed.

(** ** What the caller of a take-latest action gets *)

(** X7. When the underlying action returns [v], the caller of the
    take-latest action gets [v], one turn later and in the state the
    action and the environment left; when it fails with [undefined] or
    [null], the caller gets a [TypeError] instead, raised by the [catch]
    clause reading [e.name]. *)
Theorem takeLatest_returns_value_and_trips_on_nullish
    (site : nat) (action : Action) (context : Context) (args : list jsval)
    (w : World) (envs : list Env) (tick : Env) (wf : World) :
  (forall v,
     run envs (action context args (supersede site context w).1) = Some (wf, Returned v) ->
     run (envs ++ [tick]) (takeLatest site action context args w)
     = Some (tick wf, Returned v))
  ∧ (run envs (action context args (supersede site context w).1)
       = Some (wf, Threw ThrownNullish) ->
     run (envs ++ [tick]) (takeLatest site action context args w)
     = Some (tick wf, Threw (TypeError "Cannot read property 'name' of undefined"))).
Proof.
  split.
  - intros v. apply takeLatest_run_value.
  - intros Hrun. rewrite (takeLatest_run_raise _ _ _ _ _ _ tick _ _ Hrun).
    by rewrite absorb_run.
Qed.

Lemma takeLatest_returns_value_and_trips_on_nullish_witness :
  (exists wf,
     run [idle] (takeLatest 0 (user (fun _ _ => Return (Str "done")))
                   (host_context 0 (Some "action-i")) [] (fresh_world half))
     = Some (wf, Returned (Str "done")))
  ∧ (exists wf,
       run [idle] (takeLatest 0 (user (fun _ _ => Throw ThrownNullish))
                     (host_context 0 (Some "action-i")) [] (fresh_world half))
       = Some (wf, Threw (TypeError "Cannot read property 'name' of undefined"))).
Proof.
  split; eexists.
  - destruct (takeLatest_returns_value_and_trips_on_nullish 0
                (user (fun _ _ => Return (Str "done")))
                (host_context 0 (Some "action-i")) [] (fresh_world half) [] idle
                (supersede 0 (host_context 0 (Some "action-i")) (fresh_world half)).1)
      as [Hvalue _].
    exact (Hvalue (Str "done") eq_refl).
  - destruct (takeLatest_returns_value_and_trips_on_nullish 0
                (user (fun _ _ => Throw ThrownNullish))
                (host_context 0 (Some "action-i")) [] (fresh_world half) [] idle
                (supersede 0 (host_context 0 (Some "action-i")) (fresh_world half)).1)
      as [_ Hnull].
    exact (Hnull eq_refl).
Defined.

(** ** An invocation that is not cancelled *)

Lemma interp_uncancelled (n : nat) (inherited inherited' id : ident) (b : Body) :
  never_cancels id b ->
  forall envs w,
    Forall (keeps_out id) envs ->
    id ∉ cancelledActions w ->
    run envs (interp (instrumented (host_context n inherited) id) b w)
    = run envs (interp (host_context n inherited') b w).
Proof.
  induction b as [v|e|cargs k IH|cargs k IH|k IH|x k IH]; intros Hnever envs w Henvs Hid.
  - reflexivity.
  - reflexivity.
  - cbn [interp instrumented commit host_context].
    pose proof (attempt_wrappedCommit n id cargs w) as Hcall.
    rewrite bool_decide_eq_false_2 in Hcall by done.
    rewrite (bind_value _ _ _ _ _ Hcall).
    rewrite (bind_value (attempt (host_commit n cargs)) _ w _ (Returned Undefined) eq_refl).
    apply IH; [apply Hnever|done|done].
  - cbn [interp instrumented dispatch host_context].
    pose proof (attempt_wrappedDispatch n id cargs w) as Hcall.
    rewrite bool_decide_eq_false_2 in Hcall by done.
    rewrite (bind_value _ _ _ _ _ Hcall).
    rewrite (bind_value (attempt (host_dispatch n cargs)) _ w _ (Returned Undefined) eq_refl).
    apply IH; [apply Hnever|done|done].
  - cbn [interp]. unfold bind, suspend. simpl.
    destruct Henvs as [|env envs Henv Henvs]; [done|]. simpl.
    apply IH; [done|done|by apply Henv].
  - cbn [interp]. destruct Hnever as [Hne Hnever].
    rewrite !(bind_value _ _ _ _ _ (cancelAction_run x w)).
    apply IH; [done|done|]. simpl. set_solver.
Qed.

(** X8. An invocation whose identifier is never cancelled, by its body or
    by anyone else, is the body run on the entry points of the host: the
    caller gets what the body returns or throws, one turn later, and the
    store has received exactly the calls the body made, in the same order
    and with the same arguments. *)
Theorem uncancelled_invocation_is_transparent
    (n : nat) (inherited : ident) (body : ident -> list jsval -> Body)
    (args : list jsval) (w : World) (envs : list Env) (tick : Env)
    (wf : World) (o : outcome jsval) :
  let context := host_context n inherited in
  let id := invocation_id context w in
  never_cancels id (body id args) ->
  Forall (keeps_out id) envs ->
  id ∉ cancelledActions w ->
  run envs (user body (host_context n id) args (entry_state context w)) = Some (wf, o) ->
  exists wfin,
    run (envs ++ [tick]) (actionWrapper (user body) context args w) = Some (wfin, o)
    ∧ store wfin = store (tick wf).
Proof.
  intros context id Hnever Henvs Hid Hrun.
  assert (Hwrapped :
            run envs (user body (instrumented context id) args (entry_state context w))
            = Some (wf, o)).
  { rewrite <- Hrun. unfold user. cbn [rootActionId instrumented host_context].
    apply interp_uncancelled; [done|done|].
    unfold entry_state. by destruct (truthy (rootActionId context)). }
  unfold id, invocation_id, entry_state in Hwrapped.
  destruct (truthy (rootActionId context)) eqn:Htruthy.
  - exists (tick wf). split; [|done]. by apply actionWrapper_nested_run.
  - rewrite (actionWrapper_root_run _ _ _ _ _ tick _ _ Htruthy Hwrapped).
    eexists. split; [reflexivity|]. by destruct o.
Qed.

Lemma uncancelled_invocation_is_transparent_witness :
  exists wfin,
    run [idle; idle] (actionWrapper (user (fun _ => action1)) (host_context 0 None)
                        (payload "hello" "world") (fresh_world half))
    = Some (wfin, Returned Undefined)
    ∧ store wfin
      = [(0, CommitCall [Str "setProp1"; Obj [("prop1", Str "helloworld")]]);
         (0, DispatchCall [Str "action2"; Obj [("prop2", Str "world")]])].
Proof.
  assert (Hnever : never_cancels (Some "action-i") (action1 (payload "hello" "world"))).
  { simpl. intros [v|e]; simpl; [|done]. intros [v'|e']; done. }
  assert (Henvs : Forall (keeps_out (Some "action-i")) [idle]).
  { repeat constructor. by intros w. }
  assert (Hfree : Some "action-i" ∉ cancelledActions (fresh_world half)).
  { simpl. set_solver. }
  destruct (uncancelled_invocation_is_transparent 0 None (fun _ => action1)
              (payload "hello" "world") (fresh_world half) [idle] idle _ _
              Hnever Henvs Hfree eq_refl) as (wfin & Hrun & Hstore).
  exists wfin. split; [exact Hrun|exact Hstore].
Defined.

(** ** What an invocation leaves alone *)

Lemma actionWrapper_user_start (n : nat) (inherited : ident)
    (body : ident -> list jsval -> Body) (args : list jsval) (w : World) :
  exists w1 r,
    actionWrapper (user body) (host_context n inherited) args w = (w1, r)
    ∧ turn n (invocation_id (host_context n inherited) w)
        (entry_state (host_context n inherited) w) w1
    ∧ guarded n (invocation_id (host_context n inherited) w) r.
Proof.
  rewrite actionWrapper_entry. unfold bind at 1, await, user.
  set (id := invocation_id (host_context n inherited) w).
  set (w0 := entry_state (host_context n inherited) w).
  destruct (interp_quiet n inherited id
              (body (rootActionId (instrumented (host_context n inherited) id)) args) w0)
    as [Ht Hq].
  destruct (interp _ _ w0) as [w1 r]. cbn [fst snd] in Ht, Hq.
  destruct (quiet_guarded n id (negb (truthy (rootActionId (host_context n inherited))))
              r Hq w1) as [Hw Hg].
  eexists _, _. split; [apply surjective_pairing|]. split; [by rewrite Hw|exact Hg].
Qed.

Lemma advance_keeps_others {A} (n : nat) (id x : ident) (envs : list Env)
    (w : World) (r : Res A) :
  guarded n id r -> x ≠ id -> Forall (keeps_in x) envs ->
  x ∈ cancelledActions w ->
  x ∈ cancelledActions (advance envs (w, r)).1.
Proof.
  intros Hg Hne Henvs. revert w r Hg.
  induction Henvs as [|env envs Henv Henvs IH]; intros w r Hg Hx; [done|].
  destruct Hg as [a|e|k Hturn Hg]; simpl; try done.
  specialize (Hturn (env w)). specialize (Hg (env w)).
  destruct (k (env w)) as [w' r']. cbn [fst snd] in Hturn, Hg.
  apply IH; [done|]. apply Hturn; [done|]. by apply Henv.
Qed.

(** X9. An invocation of a wrapped action never takes out of the registry
    an identifier other than its own: an identifier that is cancelled when
    the invocation starts, and that nobody else cleans, is still cancelled
    at every later point of the invocation, whatever the body does. *)
Theorem invocation_cleans_only_its_own
    (n : nat) (inherited : ident) (body : ident -> list jsval -> Body)
    (args : list jsval) (w : World) (envs : list Env) (x : ident) :
  x ≠ invocation_id (host_context n inherited) w ->
  x ∈ cancelledActions w ->
  Forall (keeps_in x) envs ->
  x ∈ cancelledActions
        (advance envs (actionWrapper (user body) (host_context n inherited) args w)).1.
Proof.
  intros Hne Hx Henvs.
  destruct (actionWrapper_user_start n inherited body args w) as (w1 & r & -> & Ht & Hg).
  eapply advance_keeps_others; [done|done|done|].
  apply Ht. unfold entry_state. by destruct (truthy _).
Qed.

Lemma invocation_cleans_only_its_own_witness :
  Some "other" ∈ cancelledActions
    (advance [idle; idle]
       (actionWrapper (user (fun _ => action1)) (host_context 0 None)
          (payload "hello" "world")
          (cancelAction (Some "other") (fresh_world half)).1)).1.
Proof.
  apply (invocation_cleans_only_its_own 0 None (fun _ => action1)
           (payload "hello" "world") (cancelAction (Some "other") (fresh_world half)).1
           [idle; idle] (Some "other")).
  - discriminate.
  - simpl. set_solver.
  - repeat constructor; by intros w.
Defined.

(** ** A take-latest action dispatched again under the pending identifier *)

Lemma latest_nested_start (site n : nat) (id : ident)
    (body : ident -> list jsval -> Body) (args : list jsval) (w : World) :
  truthy id = true ->
  exists w2 r,
    latest site body (host_context n id) args w = (w2, r)
    ∧ turn n id (supersede site (instrumented (host_context n id) id) w).1 w2
    ∧ guarded n id r.
Proof.
  intros Hid. unfold latest. rewrite actionWrapper_nested by done.
  unfold bind at 1, await. cbn [rootActionId host_context].
  rewrite takeLatest_unfold. unfold try_catch, await, user.
  set (context := instrumented (host_context n id) id).
  set (w1 := (supersede site context w).1).
  destruct (interp_quiet n id id (body (rootActionId context) args) w1) as [Ht Hq].
  fold context in Ht, Hq.
  destruct (interp context (body (rootActionId context) args) w1) as [w2 r0].
  cbn [fst snd] in Ht, Hq.
  destruct (quiet_catchR_awaitR n id r0 w2 Hq) as [Hw Hq'].
  destruct (catchR (awaitR r0) absorb w2) as [w3 r1]. cbn [fst snd] in Hw, Hq'. subst w3.
  destruct (quiet_guarded n id false r1 Hq' w2) as [Hw Hg].
  eexists _, _. split; [apply surjective_pairing|]. split; [|exact Hg].
  refine (eq_ind_r (fun x => turn n id w1 x) Ht _). exact Hw.
Qed.

(** X10. A wrapped take-latest action invoked with a context that carries
    the identifier its array holds, as when its own body dispatches it
    again, cancels that identifier, its own, before it calls the body: as
    long as nobody cleans the identifier, none of the calls of this
    invocation reaches the store. *)
Theorem redispatch_under_pending_id_cancels_itself
    (site n : nat) (id : ident) (body : ident -> list jsval -> Body)
    (args : list jsval) (w : World) (envs : list Env) :
  truthy id = true ->
  id ∈ previousCalls_at site w ->
  Forall (bystander n id) envs ->
  id ∈ cancelledActions (latest site body (host_context n id) args w).1
  ∧ previousCalls_at site (latest site body (host_context n id) args w).1 = [id]
  ∧ calls_of n (store (advance envs (latest site body (host_context n id) args w)).1)
    = calls_of n (store w).
Proof.
  intros Hid Hpending Henvs.
  destruct (latest_nested_start site n id body args w Hid) as (w2 & r & -> & Ht & Hg).
  destruct (supersede_run site (instrumented (host_context n id) id) w)
    as (w1 & Hrun & Hone & Hreg & _ & _ & _ & Hstore1).
  rewrite Hrun in Ht. cbn [fst] in Ht.
  assert (Hin1 : id ∈ cancelledActions w1) by (rewrite Hreg; set_solver).
  destruct Ht as [Hreg2 (l & Hstore2 & _ & Hnone) Hprev2 _ _].
  rewrite (Hnone Hin1), app_nil_r in Hstore2.
  assert (Hin2 : id ∈ cancelledActions w2) by set_solver.
  cbn [fst]. split; [done|]. split.
  - unfold previousCalls_at in *. by rewrite Hprev2, Hone.
  - rewrite (guarded_frozen n id envs w2 r Hg Henvs Hin2). by rewrite Hstore2, Hstore1.
Qed.

Lemma redispatch_under_pending_id_cancels_itself_witness :
  calls_of 1 (store (advance [idle; idle; idle]
                       (latest 0 (fun _ _ => loading_then_set)
                          (host_context 1 (Some "action-i")) []
                          (mkWorld ∅ {[0 := [Some "action-i"]]} half 1 []))).1)
  = [].
Proof.
  destruct (redispatch_under_pending_id_cancels_itself 0 1 (Some "action-i")
              (fun _ _ => loading_then_set) []
              (mkWorld ∅ {[0 := [Some "action-i"]]} half 1 []) [idle; idle; idle])
    as (_ & _ & Hnone).
  - reflexivity.
  - unfold previousCalls_at. simpl. rewrite lookup_singleton_eq. simpl. set_solver.
  - repeat constructor; done.
  - exact Hnone.
Defined.

(** ** What take-latest leaves in the registry *)

Lemma dispatch_registry (site n : nat) (body : ident -> list jsval -> Body)
    (args : list jsval) (w : World) :
  list_to_set (previousCalls_at site w) ∪ cancelledActions w
  ⊆ cancelledActions (latest site body (host_context n None) args w).1.
Proof.
  unfold latest.
  destruct (dispatch_shape site n body args w) as (w2 & r & -> & Ht & _).
  destruct (supersede_run site (instrumented (host_context n None) (next_id w))
              (set_random_count S w)) as (w1 & Hrun & _ & Hreg & _).
  rewrite Hrun in Ht. cbn [fst] in Ht. destruct Ht as [Hreg2 _ _ _ _].
  cbn [fst]. etransitivity; [|exact Hreg2]. by rewrite Hreg.
Qed.

Section Leak.

Variables (site : nat) (body : ident -> list jsval -> Body).
Variables (source : nat -> string) (c0 N : nat).
Hypothesis Hdistinct : distinct_ids source c0 N.

Notation action := (latest site body).

Lemma step_invariant (ev : event) (s : Sys) :
  root_event ev ->
  length (tasks s) + dispatches [ev] <= N ->
  invariant site source c0 s ->
  invariant site source c0 (step action ev s).
Proof using Hdistinct.
  intros Hroot HN Hinv. destruct ev as [args|inherited args|j|x]; [| done | |].
  - by destruct (step_dispatched site body source c0 args s Hinv).
  - destruct (step_resumed site body source c0 N Hdistinct j s) as [? _]; [|done|done].
    simpl in HN. lia.
  - by destruct (step_cancelled site body source c0 x s Hinv).
Qed.

Lemma step_keeps_settled (ev : event) (s : Sys) (i : nat) (r : Res jsval) :
  root_event ev ->
  length (tasks s) + dispatches [ev] <= N ->
  invariant site source c0 s ->
  tasks s !! i = Some r -> settled r ->
  drawn_id source (c0 + i) ∈ cancelledActions (world s) ->
  tasks (step action ev s) !! i = Some r
  ∧ drawn_id source (c0 + i) ∈ cancelledActions (world (step action ev s)).
Proof using Hdistinct.
  intros Hroot HN Hinv Hi Hset Hin.
  destruct ev as [args|inherited args|j|x]; [| done | |]; unfold step.
  - pose proof (dispatch_registry site (length (tasks s)) body args (world s)) as Hsub.
    destruct (action _ args (world s)) as [w' r']. cbn [fst world tasks] in *.
    split; [by apply lookup_app_l_Some|]. set_solver.
  - destruct (tasks s !! j) as [[a|e|k]|] eqn:Hj; try done.
    assert (Hne : i ≠ j) by (intros ->; rewrite Hi in Hj; simplify_eq; done).
    pose proof (inv_guarded _ _ _ _ Hinv j _ Hj) as Hg.
    inversion Hg as [| |k' Hturn _ Hk]. subst k'. specialize (Hturn (world s)).
    destruct (k (world s)) as [w' r']. cbn [fst snd world tasks] in *.
    split; [by rewrite list_lookup_insert_ne|].
    apply Hturn; [|done]. intros Heq. apply Hne.
    apply (distinct_ids_lookup source c0 N); [done| | |done].
    + apply lookup_lt_Some in Hi. simpl in HN. lia.
    + apply lookup_lt_Some in Hj. simpl in HN. lia.
  - cbn [world tasks]. split; [done|]. unfold external. simpl. set_solver.
Qed.

Lemma exec_keeps_settled (evs : list event) (s : Sys) (i : nat) (r : Res jsval) :
  Forall root_event evs ->
  length (tasks s) + dispatches evs <= N ->
  invariant site source c0 s ->
  tasks s !! i = Some r -> settled r ->
  drawn_id source (c0 + i) ∈ cancelledActions (world s) ->
  drawn_id source (c0 + i) ∈ cancelledActions (world (exec action evs s)).
Proof using Hdistinct.
  intros Hroots. revert s.
  induction Hroots as [|ev evs Hroot Hroots IH]; intros s HN Hinv Hi Hset Hin; [done|].
  unfold exec. cbn [foldl]. fold (exec action evs (step action ev s)).
  assert (dispatches (ev :: evs) = dispatches [ev] + dispatches evs) as Hsplit.
  { destruct ev; reflexivity. }
  rewrite Hsplit in HN.
  destruct (step_keeps_settled ev s i r) as [Hi' Hin']; try done; [lia|].
  apply IH; try done.
  - rewrite (step_length site body ev s). lia.
  - apply step_invariant; [done|lia|done].
Qed.

End Leak.

(** X11. In a store whose action is a wrapped take-latest action, an
    invocation that had already completed when the next one was dispatched
    has its identifier put in the registry by that dispatch, and the
    identifier stays there through every later dispatch, resumption and
    outside call of [cancelAction]: nothing cleans it any more. *)
Theorem completed_predecessor_stays_registered
    (site : nat) (body : ident -> list jsval -> Body) (w0 : World)
    (evs1 : list event) (args : list jsval) (evs2 : list event)
    (i : nat) (r : Res jsval) :
  let action := latest site body in
  let s1 := exec action evs1 (mkSys w0 []) in
  let s2 := exec action (Dispatched args :: evs2) s1 in
  Forall root_event (evs1 ++ Dispatched args :: evs2) ->
  previousCalls_at site w0 = [] ->
  distinct_ids (random_source w0) (random_count w0)
    (dispatches (evs1 ++ Dispatched args :: evs2)) ->
  tasks s1 !! i = Some r -> settled r -> S i = length (tasks s1) ->
  drawn_id (random_source w0) (random_count w0 + i) ∈ cancelledActions (world s2).
Proof.
  intros action s1 s2 Hroots Hfresh Hdistinct Hi Hset Hlast.
  apply Forall_app in Hroots as [Hroots1 Hroots2].
  apply Forall_cons in Hroots2 as [_ Hroots2].
  set (N := dispatches (evs1 ++ Dispatched args :: evs2)) in *.
  assert (HN : N = dispatches evs1 + S (dispatches evs2)).
  { unfold N. clear. induction evs1 as [|[]]; simpl; lia. }
  assert (Hinit : invariant site (random_source w0) (random_count w0) (mkSys w0 [])).
  { split; simpl; try done; lia. }
  clearbody N.
  destruct (exec_invariant site body _ _ N Hdistinct evs1 (mkSys w0 []))
    as (Hinv1 & Hlen1 & _); [done|simpl; lia|done|].
  fold action s1 in Hinv1, Hlen1. simpl in Hlen1.
  destruct (step_dispatched site body _ _ args s1 Hinv1) as (Hinv1' & Hlen1' & _).
  fold action in Hinv1', Hlen1'.
  unfold s2, exec. cbn [foldl]. fold (exec action evs2 (step action (Dispatched args) s1)).
  apply (exec_keeps_settled site body _ _ N Hdistinct evs2 _ i r); try done.
  - lia.
  - unfold step. destruct (action _ args (world s1)) as [w' r']. cbn [tasks].
    by apply lookup_app_l_Some.
  - pose proof (dispatch_registry site (length (tasks s1)) body args (world s1)) as Hsub.
    pose proof (inv_pending _ _ _ _ Hinv1) as Hpend. rewrite <- Hlast in Hpend.
    unfold step. fold action in Hsub.
    destruct (action _ args (world s1)) as [w' r']. cbn [fst world] in *.
    apply Hsub. rewrite Hpend. set_solver.
Qed.

Lemma completed_predecessor_stays_registered_witness :
  drawn_id (random_source (fresh_world counting)) (random_count (fresh_world counting) + 0)
  ∈ cancelledActions (world
      (exec (latest 0 (fun _ _ => loading_then_set))
         (Dispatched [] :: [Resumed 1; Resumed 1; Resumed 1])
         (exec (latest 0 (fun _ _ => loading_then_set))
            [Dispatched []; Resumed 0; Resumed 0; Resumed 0]
            (mkSys (fresh_world counting) [])))).
Proof.
  assert (Hdistinct : distinct_ids counting 0 2).
  { unfold distinct_ids. simpl. apply NoDup_cons. split; [|apply NoDup_singleton].
    rewrite list_elem_of_singleton. discriminate. }
  assert (Hroots : Forall root_event
                     ([Dispatched []; Resumed 0; Resumed 0; Resumed 0]
                      ++ Dispatched [] :: [Resumed 1; Resumed 1; Resumed 1])).
  { repeat constructor. }
  assert (Hdone : tasks (exec (latest 0 (fun _ _ => loading_then_set))
                           [Dispatched []; Resumed 0; Resumed 0; Resumed 0]
                           (mkSys (fresh_world counting) [])) !! 0
                  = Some (Value Undefined)).
  { vm_compute. reflexivity. }
  assert (Hlast : 1 = length (tasks (exec (latest 0 (fun _ _ => loading_then_set))
                                       [Dispatched []; Resumed 0; Resumed 0; Resumed 0]
                                       (mkSys (fresh_world counting) [])))).
  { vm_compute. reflexivity. }
  exact (completed_predecessor_stays_registered 0 (fun _ _ => loading_then_set)
           (fresh_world counting) [Dispatched []; Resumed 0; Resumed 0; Resumed 0] []
           [Resumed 1; Resumed 1; Resumed 1] 0 (Value Undefined)
           Hroots eq_refl Hdistinct Hdone I Hlast).
Defined.

(** ** The latest invocation *)

(** X12. A root invocation of a wrapped take-latest action whose fresh
    identifier is neither in the registry nor in the array of the call
    site, and is not cancelled while it runs (no later dispatch, no outside
    call, no [cancelAction] of its own), is the body run on the entry
    points of the host: the caller gets the value the body returns, two
    turns later, and the store has received exactly the calls the body
    made. *)
Theorem latest_invocation_commits_everything
    (site n : nat) (body : ident -> list jsval -> Body) (args : list jsval)
    (w : World) (envs : list Env) (tick1 tick2 : Env) (wf : World) (v : jsval) :
  let id := next_id w in
  let w1 := (supersede site (instrumented (host_context n None) id)
               (set_random_count S w)).1 in
  never_cancels id (body id args) ->
  Forall (keeps_out id) envs ->
  id ∉ cancelledActions w ->
  id ∉ previousCalls_at site w ->
  run envs (user body (host_context n id) args w1) = Some (wf, Returned v) ->
  exists wfin,
    run (envs ++ [tick1; tick2]) (latest site body (host_context n None) args w)
    = Some (wfin, Returned v)
    ∧ store wfin = store (tick2 (tick1 wf)).
Proof.
  intros id w1 Hnever Henvs Hid Hpending Hrun.
  set (context := instrumented (host_context n None) id).
  assert (Hfree : id ∉ cancelledActions w1).
  { destruct (supersede_run site context (set_random_count S w))
      as (w1' & Hs & _ & Hreg & _).
    assert (Hw1 : w1 = w1') by (unfold w1; fold context; by rewrite Hs).
    rewrite Hw1, Hreg.
    change (previousCalls_at site (set_random_count S w)) with (previousCalls_at site w).
    change (cancelledActions (set_random_count S w)) with (cancelledActions w).
    set_solver. }
  assert (Hinner : run envs (user body context args w1) = Some (wf, Returned v)).
  { rewrite <- Hrun. unfold user, context. cbn [rootActionId instrumented host_context].
    by apply interp_uncancelled. }
  pose proof (takeLatest_run_value site (user body) context args (set_random_count S w)
                envs tick1 wf v Hinner) as Hlatest.
  pose proof (actionWrapper_root_run (takeLatest site (user body)) (host_context n None)
                args w (envs ++ [tick1]) tick2 (tick1 wf) (Returned v) eq_refl Hlatest)
    as Houter.
  rewrite <- app_assoc in Houter.
  change ([tick1] ++ [tick2])%list with [tick1; tick2] in Houter.
  unfold latest. rewrite Houter.
  eexists. split; [reflexivity|done].
Qed.

Lemma latest_invocation_commits_everything_witness :
  exists wfin,
    run [idle; idle; idle]
      (latest 0 (fun _ => action1) (host_context 0 None) (payload "goodbye" "lennin")
         (fresh_world half))
    = Some (wfin, Returned Undefined)
    ∧ store wfin
      = [(0, CommitCall [Str "setProp1"; Obj [("prop1", Str "goodbyelennin")]]);
         (0, DispatchCall [Str "action2"; Obj [("prop2", Str "lennin")]])].
Proof.
  assert (Hnever : never_cancels (Some "action-i") (action1 (payload "goodbye" "lennin"))).
  { simpl. intros [v|e]; simpl; [|done]. intros [v'|e']; done. }
  assert (Henvs : Forall (keeps_out (Some "action-i")) [idle]).
  { repeat constructor. by intros w. }
  assert (Hfree : Some "action-i" ∉ cancelledActions (fresh_world half)).
  { simpl. set_solver. }
  assert (Hpending : Some "action-i" ∉ previousCalls_at 0 (fresh_world half)).
  { unfold previousCalls_at. simpl. rewrite lookup_empty. simpl. set_solver. }
  destruct (latest_invocation_commits_everything 0 0 (fun _ => action1)
              (payload "goodbye" "lennin") (fresh_world half) [idle] idle idle _ Undefined
              Hnever Henvs Hfree Hpending eq_refl) as (wfin & Hrun & Hstore).
  exists wfin. split; [exact Hrun|exact Hstore].
Defined.

(** ** An action wrapped twice *)

Lemma run_bindR_ext {A B} (f g : A -> M B) :
  (forall a w envs, run envs (f a w) = run envs (g a w)) ->
  forall envs r w, run envs (bindR r f w) = run envs (bindR r g w).
Proof.
  intros Hfg envs. induction envs as [|env envs IH]; intros r w.
  - destruct r as [a|e|k]; cbn [bindR]; [apply Hfg|done|done].
  - destruct r as [a|e|k]; cbn [bindR]; [apply Hfg|done|].
    cbn [run]. destruct (k (env w)) as [w' r']. apply IH.
Qed.

(** An entry point wrapped twice for one identifier is the entry point
    wrapped once. *)
Lemma interceptors_twice (id : ident) (orig : HostFn) (args : list jsval) (w : World) :
  wrappedCommit id (wrappedCommit id orig) args w = wrappedCommit id orig args w
  ∧ wrappedDispatch id (wrappedDispatch id orig) args w = wrappedDispatch id orig args w.
Proof.
  rewrite ?wrappedCommit_run, ?wrappedDispatch_run. split; by case_bool_decide.
Qed.

(** Two contexts whose entry points agree run a body alike. *)
Lemma interp_ext (context1 context2 : Context) (b : Body) :
  (forall args w, commit context1 args w = commit context2 args w) ->
  (forall args w, dispatch context1 args w = dispatch context2 args w) ->
  forall envs w, run envs (interp context1 b w) = run envs (interp context2 b w).
Proof.
  intros Hcommit Hdispatch.
  induction b as [v|e|cargs k IH|cargs k IH|k IH|x k IH]; intros envs w.
  - reflexivity.
  - reflexivity.
  - cbn [interp]. unfold bind, attempt. rewrite Hcommit.
    destruct (commit context2 cargs w) as [w1 r].
    apply run_bindR_ext. intros o w' envs'. apply IH.
  - cbn [interp]. unfold bind, attempt. rewrite Hdispatch.
    destruct (dispatch context2 cargs w) as [w1 r].
    apply run_bindR_ext. intros o w' envs'. apply IH.
  - cbn [interp]. unfold bind, suspend. simpl.
    destruct envs as [|env envs]; [done|]. simpl. apply IH.
  - cbn [interp]. rewrite !(bind_value _ _ _ _ _ (cancelAction_run x w)). apply IH.
Qed.

(** X13. An action wrapped twice, as by [makeCancellable] applied to its
    own result, behaves as the action wrapped once: the inner wrapper
    finds the identifier of the outer one, draws none and cleans nothing,
    and its interceptors check the same identifier again.  Where the body
    settles after the suspensions [envs], the caller of the twice wrapped
    action gets after two more turns what the caller of the once wrapped
    action gets after one turn that does the work of both. *)
Theorem wrapping_twice_is_wrapping_once
    (body : ident -> list jsval -> Body) (context : Context) (args : list jsval)
    (w : World) (envs : list Env) (tick1 tick2 : Env) (wf : World) (o : outcome jsval) :
  truthy (rootActionId context) = false ->
  run envs (user body (instrumented context (next_id w)) args (set_random_count S w))
    = Some (wf, o) ->
  run (envs ++ [tick1; tick2]) (actionWrapper (actionWrapper (user body)) context args w)
  = run (envs ++ [fun w => tick2 (tick1 w)]) (actionWrapper (user body) context args w)
  ∧ run (envs ++ [fun w => tick2 (tick1 w)]) (actionWrapper (user body) context args w)
    = Some (match o with
            | Returned _ => (actionCanceller.cleanAction (next_id w) (tick2 (tick1 wf))).1
            | Threw _ => tick2 (tick1 wf)
            end, o).
Proof.
  intros Hroot Hrun.
  set (id := next_id w) in *. set (context1 := instrumented context id) in *.
  assert (Hinner : run envs (user body (instrumented context1 (rootActionId context1)) args
                               (set_random_count S w)) = Some (wf, o)).
  { rewrite <- Hrun. unfold user, context1. cbn [rootActionId instrumented].
    apply interp_ext; intros cargs w'; cbn [commit dispatch instrumented].
    - by destruct (interceptors_twice id (commit context) cargs w') as [-> _].
    - by destruct (interceptors_twice id (dispatch context) cargs w') as [_ ->]. }
  pose proof (actionWrapper_nested_run (user body) context1 args (set_random_count S w)
                envs tick1 wf o eq_refl Hinner) as Hnested.
  pose proof (actionWrapper_root_run (actionWrapper (user body)) context args w
                (envs ++ [tick1]) tick2 (tick1 wf) o Hroot Hnested) as Htwice.
  rewrite <- app_assoc in Htwice.
  change ([tick1] ++ [tick2])%list with [tick1; tick2] in Htwice.
  pose proof (actionWrapper_root_run (user body) context args w envs
                (fun w => tick2 (tick1 w)) wf o Hroot Hrun) as Honce.
  split; [|exact Honce].
  etransitivity; [exact Htwice|]. symmetry. etransitivity; [exact Honce|].
  by destruct o.
Qed.

Lemma wrapping_twice_is_wrapping_once_witness :
  run [idle; idle; idle]
    (actionWrapper (actionWrapper (user (fun _ => action1))) (host_context 0 None)
       (payload "hello" "world") (fresh_world half))
  = run [idle; idle]
      (actionWrapper (user (fun _ => action1)) (host_context 0 None)
         (payload "hello" "world") (fresh_world half)).
Proof.
  destruct (wrapping_twice_is_wrapping_once (fun _ => action1) (host_context 0 None)
              (payload "hello" "world") (fresh_world half) [idle] idle idle _ _
              eq_refl eq_refl) as [Hsame _].
  exact Hsame.
Defined.

(** ** Two take-latest actions *)

(** X14. The arrays of two [takeLatest(...)] calls are apart: an invocation
    of one take-latest action calls its underlying action in a state in
    which an identifier pending at another call site, and absent from its
    own array, is still pending there and is not cancelled if it was
    not. *)
Theorem other_call_site_is_not_superseded
    (site site' : nat) (action : Action) (context : Context) (args : list jsval)
    (w : World) (id : ident) :
  site' ≠ site ->
  id ∈ previousCalls_at site' w ->
  id ∉ previousCalls_at site w ->
  id ∉ cancelledActions w ->
  takeLatest site action context args w
  = try_catch (await (action context args)) absorb (supersede site context w).1
  ∧ id ∈ previousCalls_at site' (supersede site context w).1
  ∧ id ∉ cancelledActions (supersede site context w).1.
Proof.
  intros Hsite Hthere Hnot Hfree. split; [apply takeLatest_unfold|].
  destruct (supersede_run site context w) as (w1 & -> & _ & Hreg & Hothers & _).
  cbn [fst]. split.
  - by rewrite Hothers.
  - rewrite Hreg. set_solver.
Qed.

Lemma other_call_site_is_not_superseded_witness :
  Some "action-a" ∉ cancelledActions
    (supersede 1 (host_context 1 (Some "action-b"))
       (mkWorld ∅ {[0 := [Some "action-a"]]} half 2 [])).1.
Proof.
  destruct (other_call_site_is_not_superseded 1 0 (user (fun _ _ => Return Undefined))
              (host_context 1 (Some "action-b")) []
              (mkWorld ∅ {[0 := [Some "action-a"]]} half 2 []) (Some "action-a"))
    as (_ & _ & Hfree).
  - done.
  - unfold previousCalls_at. simpl. rewrite lookup_singleton_eq. simpl. set_solver.
  - unfold previousCalls_at. simpl. rewrite lookup_singleton_ne by done. simpl. set_solver.
  - simpl. set_solver.
  - exact Hfree.
Defined.

(** ** No rollback *)

Lemma advance_appends {A} (n : nat) (id : ident) (envs : list Env) (w : World) (r : Res A) :
  guarded n id r -> Forall appends envs ->
  store w `prefix_of` store (advance envs (w, r)).1.
Proof.
  intros Hg Henvs. revert w r Hg.
  induction Henvs as [|env envs Henv Henvs IH]; intros w r Hg; [done|].
  destruct Hg as [a|e|k Hturn Hg]; simpl; try done.
  specialize (Hturn (env w)). specialize (Hg (env w)).
  destruct (k (env w)) as [w' r']. cbn [fst snd] in Hturn, Hg.
  etransitivity; [apply Henv|]. etransitivity; [|by apply IH].
  destruct Hturn as [_ _ (l & -> & _) _ _ _]. by apply prefix_app_r.
Qed.

(** X15. An invocation of a wrapped action never takes a call back: at
    every point of its life, cancelled or not, the store begins with the
    calls it held when the invocation started, in the same order, as long
    as the rest of the system only adds calls too. *)
Theorem invocation_never_undoes_a_call
    (n : nat) (inherited : ident) (body : ident -> list jsval -> Body)
    (args : list jsval) (w : World) (envs : list Env) :
  Forall appends envs ->
  store w `prefix_of`
    store (advance envs (actionWrapper (user body) (host_context n inherited) args w)).1.
Proof.
  intros Henvs.
  destruct (actionWrapper_user_start n inherited body args w) as (w1 & r & -> & Ht & Hg).
  etransitivity; [|by eapply advance_appends].
  destruct Ht as [_ (l & Hstore & _) _ _ _]. rewrite Hstore.
  unfold entry_state. destruct (truthy _); by apply prefix_app_r.
Qed.

Lemma invocation_never_undoes_a_call_witness :
  [(7, CommitCall [Str "earlier"])] `prefix_of`
    store (advance [external (cancelAction (Some "action-i")); idle]
             (actionWrapper (user (fun _ _ => loading_then_set)) (host_context 0 None) []
                (mkWorld ∅ ∅ half 0 [(7, CommitCall [Str "earlier"])]))).1.
Proof.
  apply (invocation_never_undoes_a_call 0 None (fun _ _ => loading_then_set) []
           (mkWorld ∅ ∅ half 0 [(7, CommitCall [Str "earlier"])])
           [external (cancelAction (Some "action-i")); idle]).
  repeat constructor; intros w; done.
Defined.
